(** * TTS-AppleSilicon: the text segmenter ([parser.py]), the run logger
      ([logger.py]), the pipeline and the combiner ([main.py]), embedded
      shallowly and verified.

    Python strings are sequences of Unicode code points; they are modelled as
    [list N].  Operations that can raise in Python ([result[-1]], the explicit
    [raise ValueError]) live in a small error monad. *)

From Stdlib Require Import Ascii String.
From stdpp Require Import base numbers option list.

Local Open Scope N_scope.

(** ** Strings *)

Module Py.

Abbreviation str := (list N).

(** String literals of the development: the code points of an ASCII text. *)
Definition lit (s : string) : str := N_of_ascii <$> list_ascii_of_string s.

Definition NL : N := 10.      (* '\n' *)
Definition SPACE : N := 32.   (* ' '  *)

(** [str.isspace] on one character, which is also what [str.strip] removes and
    what the regular expression class [\s] matches on [str] patterns. *)
Definition isspace (c : N) : bool :=
  ((9 <=? c) && (c <=? 13)) || ((28 <=? c) && (c <=? 32))
  || (c =? 133) || (c =? 160) || (c =? 5760)
  || ((8192 <=? c) && (c <=? 8202))
  || (c =? 8232) || (c =? 8233) || (c =? 8239) || (c =? 8287) || (c =? 12288).

Fixpoint drop_while (p : N → bool) (s : str) : str :=
  match s with
  | [] => []
  | c :: s' => if p c then drop_while p s' else s
  end.

Fixpoint take_while (p : N → bool) (s : str) : str :=
  match s with
  | [] => []
  | c :: s' => if p c then c :: take_while p s' else []
  end.

Definition lstrip (s : str) : str := drop_while isspace s.
Definition rstrip (s : str) : str := reverse (drop_while isspace (reverse s)).

(** [s.strip()] *)
Definition strip (s : str) : str := rstrip (lstrip s).

(** Truth value of a string or of a list: non-empty. *)
Definition truthy {A} (l : list A) : bool :=
  match l with [] => false | _ => true end.

(** [len(s)] as a Python integer. *)
Definition len (s : str) : Z := Z.of_nat (length s).

(** [s.split(sep)] for a one-character separator. *)
Fixpoint split (sep : N) (s : str) : list str :=
  match s with
  | [] => [[]]
  | c :: s' =>
      if c =? sep then [] :: split sep s'
      else match split sep s' with
           | l :: ls => (c :: l) :: ls
           | [] => [[c]]
           end
  end.

(** [sep.join(parts)] *)
Fixpoint join (sep : str) (parts : list str) : str :=
  match parts with
  | [] => []
  | [p] => p
  | p :: rest => p ++ sep ++ join sep rest
  end.

(** *** Exceptions *)

Inductive exn : Type :=
| IndexError
| ValueError (msg : string)
| LibraryError (name msg : string).   (* raised inside a library call *)

Inductive res (A : Type) : Type :=
| Ok (a : A)
| Raise (e : exn).
Arguments Ok {A} a.
Arguments Raise {A} e.

#[export] Instance res_ret : MRet res := λ A a, Ok a.
#[export] Instance res_bind : MBind res := λ A B k m,
  match m with
  | Ok a => k a
  | Raise e => Raise e
  end.

(** [l[-1]]: raises [IndexError] on the empty list. *)
Definition index_last {A} (l : list A) : res A :=
  match last l with
  | Some x => Ok x
  | None => Raise IndexError
  end.

End Py.

Import Py.

(** ** The regular expressions of [TextParser] *)

Module Re.

Definition HASH : N := 35.
Definition is_hash (c : N) : bool := c =? HASH.

(** The class [[.!?]]. *)
Definition is_sentence_end (c : N) : bool := (c =? 46) || (c =? 33) || (c =? 63).

(** [(.+)$] under [re.MULTILINE], anchored at the start of [s]: the dot takes
    every character up to the next newline (greedy), at least one, and [$]
    then holds at the end of the text or in front of that newline. *)
Definition dot_plus_eol (s : str) : option str :=
  match take_while (λ c, negb (c =? NL)) s with
  | [] => None
  | g => Some g
  end.

(** [\s+(.+)$] anchored at the start of [s], with the greedy backtracking of
    the engine: a further whitespace character is tried first, and the rest
    of the pattern only when that fails.  The result is group 2. *)
Fixpoint spaces_then_text (s : str) : option str :=
  match s with
  | c :: s' =>
      if isspace c then
        match spaces_then_text s' with
        | Some g => Some g
        | None => dot_plus_eol s'
        end
      else None
  | [] => None
  end.

(** [#{1,n}\s+(.+)$] anchored at the start of [s]: greedy in the same way. *)
Fixpoint hashes_then (n : nat) (s : str) : option str :=
  match n, s with
  | S n', c :: s' =>
      if is_hash c then
        match hashes_then n' s' with
        | Some g => Some g
        | None => spaces_then_text s'
        end
      else None
  | _, _ => None
  end.

(** [header_pattern.match(s)] for [header_pattern =
    re.compile(r'^(#{1,6})\s+(.+)$', re.MULTILINE)]: [Some (group 2)] on a
    match and [None] otherwise. *)
Definition header_match (s : str) : option str := hashes_then 6 s.

(** [\s+] anchored at the start of [s]: what is left after the whitespace. *)
Definition spaces (s : str) : option str :=
  match s with
  | c :: s' => if isspace c then Some (drop_while isspace s') else None
  | [] => None
  end.

(** [([.!?]+)\s+] anchored at the start of [s]: group 1 and the text left after
    the match. *)
Fixpoint sentence_end_at (s : str) : option (str * str) :=
  match s with
  | c :: s' =>
      if is_sentence_end c then
        match sentence_end_at s' with
        | Some (g, rest) => Some (c :: g, rest)
        | None =>
            match spaces s' with
            | Some rest => Some ([c], rest)
            | None => None
            end
        end
      else None
  | [] => None
  end.

(** [re.search]: the leftmost match; the text before it, group 1, the text
    after it. *)
Fixpoint search (s : str) : option (str * str * str) :=
  match sentence_end_at s with
  | Some (g, rest) => Some ([], g, rest)
  | None =>
      match s with
      | [] => None
      | c :: s' =>
          match search s' with
          | Some (pre, g, rest) => Some (c :: pre, g, rest)
          | None => None
          end
      end
  end.

(** [re.split(r'([.!?]+)\s+', s)]: the pieces between successive matches,
    interleaved with group 1 of each match.  Every match consumes at least two
    characters, so [length s] rounds are more than the scan can need
    (see [split_fuel_enough]). *)
Fixpoint split_from (fuel : nat) (s : str) : list str :=
  match fuel with
  | O => [s]
  | S fuel' =>
      match search s with
      | Some (pre, g, rest) => pre :: g :: split_from fuel' rest
      | None => [s]
      end
  end.

Definition split (s : str) : list str := split_from (length s) s.

End Re.

(** ** [parser.py] *)

Record TextSegment : Type := mkSegment {
  text : str;
  header : option str;    (* [None] is Python's [None] *)
  is_header : bool
}.

Definition set_text (s : TextSegment) (t : str) : TextSegment :=
  {| text := t; header := header s; is_header := is_header s |}.

Record TextParser : Type := mkParser {
  split_by_headers : bool;
  split_by_punctuation : bool;
  min_segment_length : Z
}.

(** *** [_split_by_headers] *)

(** The three variables the loop over the lines updates. *)
Record hstate : Type := mkH {
  segments : list TextSegment;
  current_header : option str;
  current_text : list str
}.

(** "Save previous segment if it has content" / "Add remaining text". *)
Definition save_current (st : hstate) : list TextSegment :=
  if truthy (current_text st) then
    let segment_text := strip (join [NL] (current_text st)) in
    if truthy segment_text then
      segments st ++ [mkSegment segment_text (current_header st) false]
    else segments st
  else segments st.

(** One iteration of [for line in lines]. *)
Definition header_step (st : hstate) (line : str) : hstate :=
  match Re.header_match (strip line) with
  | Some group2 =>
      let header_text := strip group2 in
      mkH (save_current st ++ [mkSegment header_text (Some header_text) true])
          (Some header_text) []
  | None =>
      if truthy (strip line)
      then mkH (segments st) (current_header st) (current_text st ++ [line])
      else st
  end.

Definition _split_by_headers (txt : str) : list TextSegment :=
  save_current (foldl header_step (mkH [] None []) (Py.split NL txt)).

(** *** [_split_by_punctuation] *)

Section Punctuation.

Variable min_len : Z.   (* [self.min_segment_length] *)

(** [for i, part in enumerate(sentences)]: the state is [current_sentence] and
    [result]; [hdr] is [segment.header]. *)
Fixpoint sentence_loop (hdr : option str) (i : nat) (parts : list str)
    (current_sentence : str) (result : list TextSegment)
    : str * list TextSegment :=
  match parts with
  | [] => (current_sentence, result)
  | part :: parts' =>
      if Nat.even i then
        sentence_loop hdr (S i) parts' (current_sentence ++ part) result
      else
        let sentence_text := strip (current_sentence ++ part) in
        let result' :=
          if truthy sentence_text && bool_decide (min_len ≤ len sentence_text)%Z
          then result ++ [mkSegment sentence_text hdr false]
          else result in
        sentence_loop hdr (S i) parts' [] result'
  end.

(** "Add remaining text if any": the code after the inner loop.  [result[-1]]
    is read only after [result] was tested, as [and] short-circuits; the
    in-place [+=] on the last object is the replacement of the last element,
    the object being owned by [result] alone (it was created in this call). *)
Definition remainder_step (hdr : option str) (current_sentence : str)
    (result : list TextSegment) : res (list TextSegment) :=
  if truthy (strip current_sentence) then
    let remaining := strip current_sentence in
    if bool_decide (min_len ≤ len remaining)%Z then
      Ok (result ++ [mkSegment remaining hdr false])
    else if truthy remaining then
      mergeable ←
        (if truthy result
         then (prev ← index_last result; Ok (negb (is_header prev)))
         else Ok false);
      if (mergeable : bool) then
        prev ← index_last result;
        Ok (<[pred (length result) :=
               set_text prev (text prev ++ [SPACE] ++ remaining)]> result)
      else Ok (result ++ [mkSegment remaining hdr false])
    else Ok result
  else Ok result.

(** The body of [for segment in segments]. *)
Definition punctuation_step (result : list TextSegment) (segment : TextSegment)
    : res (list TextSegment) :=
  if is_header segment then Ok (result ++ [segment])
  else
    let sentences := Re.split (text segment) in
    let '(current_sentence, result') :=
      sentence_loop (header segment) 0 sentences [] result in
    remainder_step (header segment) current_sentence result'.

Fixpoint punctuation_loop (segs : list TextSegment) (result : list TextSegment)
    : res (list TextSegment) :=
  match segs with
  | [] => Ok result
  | segment :: segs' =>
      result' ← punctuation_step result segment;
      punctuation_loop segs' result'
  end.

Definition _split_by_punctuation (segs : list TextSegment)
    : res (list TextSegment) :=
  punctuation_loop segs [].

End Punctuation.

(** *** [parse] *)

(** The segments before punctuation splitting. *)
Definition pre_split (self : TextParser) (txt : str) : list TextSegment :=
  if split_by_headers self then _split_by_headers txt
  else [mkSegment (strip txt) None false].

(** The test of "Filter out segments that are too short". *)
Definition long_enough (self : TextParser) (s : TextSegment) : Prop :=
  (min_segment_length self ≤ len (strip (text s)))%Z.

#[export] Instance long_enough_dec self s : Decision (long_enough self s).
Proof. unfold long_enough. apply _. Defined.

Definition parse (self : TextParser) (txt : str) : res (list TextSegment) :=
  if negb (truthy (strip txt)) then Ok []
  else
    segs ←
      (if split_by_punctuation self
       then _split_by_punctuation (min_segment_length self) (pre_split self txt)
       else Ok (pre_split self txt));
    Ok (filter (long_enough self) segs).

(** *** [extract_headers] *)

(** [header_pattern.finditer(text)] needs, besides group 2, the place where a
    match ends.  The three functions below are [Re.dot_plus_eol],
    [Re.spaces_then_text] and [Re.hashes_then] returning that as well. *)
Definition dot_plus_eol_rest (s : str) : option (str * str) :=
  match take_while (λ c, negb (c =? NL)) s with
  | [] => None
  | g => Some (g, drop_while (λ c, negb (c =? NL)) s)
  end.

Fixpoint spaces_then_text_rest (s : str) : option (str * str) :=
  match s with
  | c :: s' =>
      if isspace c then
        match spaces_then_text_rest s' with
        | Some m => Some m
        | None => dot_plus_eol_rest s'
        end
      else None
  | [] => None
  end.

Fixpoint hashes_then_rest (n : nat) (s : str) : option (str * str) :=
  match n, s with
  | S n', c :: s' =>
      if Re.is_hash c then
        match hashes_then_rest n' s' with
        | Some m => Some m
        | None => spaces_then_text_rest s'
        end
      else None
  | _, _ => None
  end.

(** The scan of [finditer]: at each position the pattern is tried, [^] holding
    at the start of the text and after a newline ([bol]); after a match the
    scan goes on where the match ended, otherwise one character further.  The
    result is group 2 of every match.  A round consumes at least one
    character, so [S (length s)] rounds are enough
    (see [finditer_fuel_enough]). *)
Fixpoint finditer_from (fuel : nat) (bol : bool) (s : str) : list str :=
  match fuel with
  | O => []
  | S fuel' =>
      match (if bol then hashes_then_rest 6 s else None) with
      | Some (g, rest) => g :: finditer_from fuel' false rest
      | None =>
          match s with
          | [] => []
          | c :: s' => finditer_from fuel' (c =? NL) s'
          end
      end
  end.

Definition finditer (s : str) : list str := finditer_from (S (length s)) true s.

Definition extract_headers (txt : str) : list str := strip <$> finditer txt.

(** ** [main.py]: [combine_audio_files] *)

(** The call the function hands to ffmpeg. *)
Record ffmpeg_job : Type := mkJob {
  concat_list : string;            (* the list file, read with format='concat' *)
  job_output : string;
  acodec : string;
  ar : Z;
  ac : Z;
  audio_filter : option string     (* the 'filter:a' option *)
}.

(** What the function does to the world, in order: the calls it makes, each
    recorded whether it then raises or not.  [WriteList] stands for the
    temporary file, created and closed again, with the lines whose [f.write]
    returned. *)
Inductive action : Type :=
| MakeDirs (dir : string)
| WriteList (path : string) (lines : list string)
| RunFfmpeg (job : ffmpeg_job)
| RemoveFile (path : string).

(** [s.replace("'", "'\\''")]: every quote becomes the four characters
    quote, backslash, quote, quote. *)
Fixpoint escape_quotes (s : string) : string :=
  match s with
  | EmptyString => EmptyString
  | String c s' =>
      if Ascii.eqb c "'"%char
      then String.append "'\''" (escape_quotes s')
      else String c (escape_quotes s')
  end.

(** [f"file '{abs_path}'\n"] *)
Definition list_line (abs_path : string) : string :=
  String.append "file '" (String.append abs_path (String "'" (String "010" EmptyString))).

Section Combiner.

(** The environment of the call.  Each call into the system either returns
    or raises; [os.path.dirname] and [os.path.exists] do not raise on
    strings. *)
Variable dirname : string → string.           (* [os.path.dirname] *)
Variable makedirs : string → res unit.        (* [os.makedirs(dir, exist_ok=True)] *)
Variable temp_file : res string.              (* [NamedTemporaryFile(...)]: [f.name] *)
Variable path_exists : string → bool.         (* [os.path.exists] of a segment file *)
Variable abspath : string → res string.       (* [os.path.abspath] *)
Variable write : nat → string → res unit.     (* [f.write(line)] after [n] lines *)
Variable close : list string → res unit.      (* the end of the [with] block *)
Variable ffmpeg_run : ffmpeg_job → res unit.  (* the body of the [try] *)
Variable temp_list_left : bool.               (* [os.path.exists(temp_list_path)] *)
Variable remove : string → res unit.          (* [os.remove] *)

(** [for segment_file in segment_files]: the lines written so far, and how
    the loop ends. *)
Fixpoint write_lines (segment_files : list string) (written : list string)
    : list string * res unit :=
  match segment_files with
  | [] => (written, Ok ())
  | segment_file :: segment_files' =>
      if path_exists segment_file then
        match abspath segment_file with
        | Raise e => (written, Raise e)
        | Ok abs_path =>
            let line := list_line (escape_quotes abs_path) in
            match write (length written) line with
            | Raise e => (written, Raise e)
            | Ok _ => write_lines segment_files' (written ++ [line])
            end
        end
      else write_lines segment_files' written
  end.

(** An exception of [os.makedirs], of the creation of the temporary file or
    of the [with] block leaves the function at once.  The file is closed when
    the block is left, also by an exception, and an exception of the close
    replaces the one under way; so does one of [os.remove] in the [finally]
    block. *)
Definition combine_audio_files (segment_files : list string)
    (output_path : string) (normalize : bool) : list action * res unit :=
  if negb (truthy segment_files) then
    ([], Raise (ValueError "No audio files to combine"))
  else
    let output_dir := dirname output_path in
    let '(made, dir_made) :=
      match output_dir with
      | EmptyString => ([], Ok ())
      | _ => ([MakeDirs output_dir], makedirs output_dir)
      end in
    match dir_made with
    | Raise e => (made, Raise e)
    | Ok _ =>
        match temp_file with
        | Raise e => (made, Raise e)
        | Ok temp_list_path =>
            let '(lines, block) := write_lines segment_files [] in
            let block_left :=
              match close lines with
              | Raise e => Raise e
              | Ok _ => block
              end in
            match block_left with
            | Raise e => (made ++ [WriteList temp_list_path lines], Raise e)
            | Ok _ =>
                let job :=
                  mkJob temp_list_path output_path "pcm_s16le" 22050 1
                        (if normalize
                         then Some "loudnorm=I=-16:TP=-1.5:LRA=11"%string
                         else None) in
                let run := ffmpeg_run job in
                if temp_list_left then
                  (made ++ [WriteList temp_list_path lines; RunFfmpeg job;
                            RemoveFile temp_list_path],
                   match remove temp_list_path with
                   | Raise e => Raise e
                   | Ok _ => run
                   end)
                else
                  (made ++ [WriteList temp_list_path lines; RunFfmpeg job], run)
            end
        end
    end.

End Combiner.

(** ** [logger.py] *)

(** *** Formatting of integers *)

(** The decimal digits of [n], most significant first, in front of [acc]. *)
Fixpoint digits_from (fuel : nat) (n : N) (acc : str) : str :=
  match fuel with
  | O => acc
  | S fuel' =>
      let acc' := (48 + n mod 10) :: acc in
      if n / 10 =? 0 then acc' else digits_from fuel' (n / 10) acc'
  end.

(** [str(n)] for [n >= 0]: a number has no more decimal than binary digits, so
    the rounds are enough (see [digits_fuel_enough]). *)
Definition decimal (n : N) : str := digits_from (S (N.size_nat n)) n [].

(** [ds.zfill(width)] for a string of digits. *)
Definition zfill (width : nat) (ds : str) : str :=
  replicate (width - length ds) 48 ++ ds.

(** [f"{z:0{width}d}"]: the zero padding comes after the sign, which counts
    in the width. *)
Definition format_d (width : nat) (z : Z) : str :=
  if (z <? 0)%Z then 45 :: zfill (width - 1) (decimal (Z.to_N (- z)))
  else zfill width (decimal (Z.to_N z)).

(** *** The logger *)

(** What the logger takes from outside: dates, the clock and floating-point
    numbers.  Nothing is assumed of them; in particular the built-in [sum] is
    not taken to be the additions of [write_log], since an interpreter may
    compensate the rounding of a sum of floats.  [sum] of no number is the
    integer 0, which prints and divides as [0.0] does. *)
Class Outside : Type := {
  datetime : Type;
  float : Type;
  clock : nat → datetime;                      (* the n-th [datetime.now()] *)
  elapsed_seconds : datetime → datetime → Z;   (* [int((dt - start).total_seconds())] *)
  elapsed_float : datetime → datetime → float; (* [(now - start).total_seconds()] *)
  float_zero : float;                          (* [0.0] *)
  float_add : float → float → float;           (* [x + y] *)
  float_sum : list float → float;              (* [sum(xs)] *)
  float_div60 : float → float;                 (* [x / 60] *)
  float_truthy : float → bool;                 (* [bool(x)] *)
  format_2f : float → str                      (* [f"{x:.2f}"] *)
}.

Section Logger.

Context `{Outside}.

Record LogEntry : Type := mkEntry {
  timestamp : datetime;
  message : str;
  duration_seconds : option float;
  segment_path : option str
}.

(** The fields of a [TTSLogger], and the number of times the clock was read
    so far. *)
Record TTSLogger : Type := mkLogger {
  log_file_path : str;
  entries : list LogEntry;
  start_time : option datetime;
  current_time : option datetime;
  now_calls : nat
}.

(** [TTSLogger(log_file_path)], the directory of the log file apart. *)
Definition new_logger (path : str) : TTSLogger := mkLogger path [] None None 0.

Definition start (self : TTSLogger) : TTSLogger :=
  let now := clock (now_calls self) in
  mkLogger (log_file_path self) [] (Some now) (Some now) (S (now_calls self)).

(** [if not self.start_time: self.start()] *)
Definition ensure_started (self : TTSLogger) : TTSLogger :=
  match start_time self with
  | Some _ => self
  | None => start self
  end.

(** [self.current_time = datetime.now()], then the append of the entry built
    from it. *)
Definition append_entry (self : TTSLogger) (msg : str)
    (duration : option float) (path : option str) : TTSLogger :=
  let now := clock (now_calls self) in
  mkLogger (log_file_path self)
           (entries self ++ [mkEntry now msg duration path])
           (start_time self) (Some now) (S (now_calls self)).

Definition log_header (self : TTSLogger) (hdr : str) : TTSLogger :=
  append_entry (ensure_started self) (lit "# " ++ hdr) None None.

(** Truth value of an optional string: present and not empty. *)
Definition truthy_opt (o : option str) : bool :=
  match o with
  | Some s => truthy s
  | None => false
  end.

Definition segment_start_message (hdr : option str) : str :=
  lit "Segment started"
  ++ (if truthy_opt hdr
      then lit " (under header: " ++ default [] hdr ++ lit ")"
      else []).

Definition log_segment_start (self : TTSLogger) (segment_text : str)
    (hdr : option str) : TTSLogger :=
  append_entry (ensure_started self) (segment_start_message hdr) None None.

Definition log_segment_end (self : TTSLogger) (duration : float)
    (path : option str) : TTSLogger :=
  append_entry (ensure_started self)
    (lit "Segment finished (duration: " ++ format_2f duration ++ lit "s)")
    (Some duration) path.

Definition log_info (self : TTSLogger) (msg : str) : TTSLogger :=
  append_entry (ensure_started self) msg None None.

(** Hours, minutes and seconds of a number of seconds, with Python's floor
    division. *)
Definition hms (total_seconds : Z) : Z * Z * Z :=
  ((total_seconds / 3600)%Z, ((total_seconds mod 3600) / 60)%Z,
   (total_seconds mod 60)%Z).

Definition format_hms (total_seconds : Z) : str :=
  let '(hours, minutes, seconds) := hms total_seconds in
  lit "[" ++ format_d 2 hours ++ lit ":" ++ format_d 2 minutes ++ lit ":"
  ++ format_d 2 seconds ++ lit "]".

Definition format_timestamp (self : TTSLogger) (dt : datetime) : str :=
  match start_time self with
  | None => lit "[00:00:00]"
  | Some start_time => format_hms (elapsed_seconds start_time dt)
  end.

(** [if entry.duration_seconds:] *)
Definition counted_duration (entry : LogEntry) : option float :=
  match duration_seconds entry with
  | Some d => if float_truthy d then Some d else None
  | None => None
  end.

(** One round of the loop of [write_log]: the writes so far and
    [total_duration]. *)
Definition write_entry (self : TTSLogger) (acc : list str * float)
    (entry : LogEntry) : list str * float :=
  let '(written, total_duration) := acc in
  let written :=
    written ++ [format_timestamp self (timestamp entry) ++ lit " "
                ++ message entry ++ [NL]] in
  let total_duration :=
    match counted_duration entry with
    | Some d => float_add total_duration d
    | None => total_duration
    end in
  let written :=
    if truthy_opt (segment_path entry)
    then written ++ [lit "  File: " ++ default [] (segment_path entry) ++ [NL]]
    else written in
  (written, total_duration).

(** [write_log]: the strings written to the log file, one per [f.write], or
    [None] when the file is not opened. *)
Definition write_log (self : TTSLogger) : option (list str) :=
  if truthy (entries self) then
    let '(written, total_duration) :=
      foldl (write_entry self)
            ([lit "TTS Generation Log" ++ [NL]; replicate 50 61 ++ [NL; NL]],
             float_zero)
            (entries self) in
    let written :=
      written
      ++ [[NL] ++ replicate 50 61 ++ [NL];
          lit "Total duration: " ++ format_2f total_duration ++ lit " seconds ("
          ++ format_2f (float_div60 total_duration) ++ lit " minutes)" ++ [NL]] in
    Some (match start_time self, current_time self with
          | Some start_time, Some current_time =>
              written ++ [lit "Total processing time: "
                          ++ format_2f (elapsed_float start_time current_time)
                          ++ lit " seconds" ++ [NL]]
          | _, _ => written
          end)
  else None.

(** [sum(entry.duration_seconds for entry in self.entries if
    entry.duration_seconds)] *)
Definition get_total_duration (self : TTSLogger) : float :=
  float_sum (omap counted_duration (entries self)).

End Logger.

(** ** [main.py]: [process_text] *)

(** What [process_text] takes from outside besides the clock: the exceptions
    [except Exception] catches and their text, [os.path.join], and
    [tts_engine.synthesize], which depends on the segment it is called for and
    either raises such an exception or returns a duration. *)
Class Engine `{Outside} : Type := {
  exception : Type;
  exception_str : exception → str;       (* [f"{e}"] *)
  path_join : str → str → str;           (* [os.path.join] *)
  synthesize : nat → str → str → option str → exception + float
}.

Section ProcessText.

Context `{Engine}.

(** The variables of the loop, and what was printed on the two streams. *)
Record progress : Type := mkProgress {
  segment_files : list str;
  logger_of : TTSLogger;
  header_seen : option str;              (* [current_header] *)
  printed : list str;
  printed_err : list str
}.

(** [os.path.join(segments_dir, f"segment_{i:04d}.wav")] *)
Definition segment_path_of (segments_dir : str) (i : nat) : str :=
  path_join segments_dir
    (lit "segment_" ++ format_d 4 (Z.of_nat i) ++ lit ".wav").

(** The body of the [try]: the speaker is looked up in the configuration
    ([speaker]; the lookup raises when [config['voice']] is not a mapping),
    then the text is synthesized. *)
Definition try_synthesize (speaker : exception + option str) (i : nat)
    (segment : TextSegment) (segment_path : str) : exception + float :=
  match speaker with
  | inl e => inl e
  | inr speaker => synthesize i (text segment) segment_path speaker
  end.

(** One round of [for i, segment in enumerate(segments)]. *)
Definition process_segment (n_segments : nat) (segments_dir : str)
    (speaker : exception + option str) (st : progress) (i : nat)
    (segment : TextSegment) : progress :=
  if is_header segment then
    mkProgress (segment_files st)
               (log_header (logger_of st) (text segment))
               (Some (text segment)) (printed st) (printed_err st)
  else
    let logger := log_segment_start (logger_of st) (text segment) (header_seen st) in
    let segment_path := segment_path_of segments_dir i in
    match try_synthesize speaker i segment segment_path with
    | inr duration =>
        mkProgress (segment_files st ++ [segment_path])
                   (log_segment_end logger duration (Some segment_path))
                   (header_seen st)
                   (printed st
                    ++ [lit "Generated segment " ++ decimal (N.of_nat (i + 1))
                        ++ lit "/" ++ decimal (N.of_nat n_segments) ++ lit ": "
                        ++ format_2f duration ++ lit "s"])
                   (printed_err st)
    | inl e =>
        let msg :=
          lit "Error processing segment " ++ decimal (N.of_nat i) ++ lit ": "
          ++ exception_str e in
        mkProgress (segment_files st) (log_info logger msg) (header_seen st)
                   (printed st) (printed_err st ++ [msg])
    end.

Fixpoint process_segments (n_segments : nat) (segments_dir : str)
    (speaker : exception + option str) (i : nat) (segs : list TextSegment)
    (st : progress) : progress :=
  match segs with
  | [] => st
  | segment :: segs' =>
      process_segments n_segments segments_dir speaker (S i) segs'
        (process_segment n_segments segments_dir speaker st i segment)
  end.

(** [process_text], from the creation of the logger on.  The parser, the two
    paths and the speaker lookup are what the function reads from [config];
    the directory of the segments is made and the engine is constructed before
    (a failing construction raises before anything is logged). *)
Definition process_text (parser : TextParser) (segments_dir log_file : str)
    (speaker : exception + option str) (txt : str) : res progress :=
  let logger := start (new_logger log_file) in
  let logger := log_info logger (lit "Starting text parsing...") in
  segs ← parse parser txt;
  let logger :=
    log_info logger
      (lit "Parsed text into " ++ decimal (N.of_nat (length segs))
       ++ lit " segments") in
  Ok (process_segments (length segs) segments_dir speaker 0 segs
        (mkProgress [] logger None [] [])).

End ProcessText.

(** ** Vocabulary of the statements *)

(** A character that [strip] keeps and [\s] does not match. *)
Definition visible (c : N) : Prop := isspace c = false.

#[export] Instance visible_dec c : Decision (visible c).
Proof. unfold visible. apply _. Defined.

(** A whitespace character. *)
Definition blank (c : N) : Prop := isspace c = true.

(** The text without its whitespace: what is compared "modulo whitespace". *)
Definition nows (s : str) : str := filter visible s.

(** A text that neither starts nor ends with whitespace. *)
Definition stripped (t : str) : Prop :=
  (∀ c, head t = Some c → visible c) ∧ (∀ c, last t = Some c → visible c).

(** One of [.], [!], [?]. *)
Definition sentence_end (c : N) : Prop := Re.is_sentence_end c = true.

(** The list [re.split] returns: text parts at the even indices, punctuation
    runs at the odd ones, a text part last. *)
Fixpoint interleave (pairs : list (str * str)) (final : str) : list str :=
  match pairs with
  | [] => [final]
  | (t, p) :: pairs' => t :: p :: interleave pairs' final
  end.

(** No line of the text is a header line. *)
Definition no_header_lines (txt : str) : Prop :=
  Forall (λ line, Re.header_match (strip line) = None) (Py.split NL txt).

(** A segment as the sentence loop and the remainder rule create it. *)
Definition fresh (hdr : option str) (t : str) : TextSegment := mkSegment t hdr false.

(** The in-place append of a short remainder. *)
Definition merged (prev : TextSegment) (remaining : str) : TextSegment :=
  set_text prev (text prev ++ [SPACE] ++ remaining).

(** The three outcomes of the remainder rule. *)
Inductive remainder_outcome (min_len : Z) (hdr : option str) (cur : str)
    (result : list TextSegment) : list TextSegment → Prop :=
| outcome_none :
    strip cur = [] → remainder_outcome min_len hdr cur result result
| outcome_own :
    strip cur ≠ [] →
    remainder_outcome min_len hdr cur result (result ++ [fresh hdr (strip cur)])
| outcome_merge init prev :
    strip cur ≠ [] → (len (strip cur) < min_len)%Z →
    result = init ++ [prev] → is_header prev = false →
    remainder_outcome min_len hdr cur result (init ++ [merged prev (strip cur)]).

(** A sentence the loop kept. *)
Definition kept (min_len : Z) (hdr : option str) (s : TextSegment) : Prop :=
  header s = hdr ∧ is_header s = false ∧ text s ≠ [] ∧ strip (text s) = text s
  ∧ (min_len ≤ len (text s))%Z.

(** A content segment under the header [hdr] whose text starts with [c]: the
    sentence [c] as emitted, or with a remainder appended to it. *)
Definition carries (c : str) (hdr : option str) (s : TextSegment) : Prop :=
  c `prefix_of` text s ∧ header s = hdr ∧ is_header s = false.

(** The visible characters of the segments, in order. *)
Definition content_of (segs : list TextSegment) : str :=
  nows (concat (text <$> segs)).

(** [a] is [b] with some characters left out, and all of [b] when [exact]. *)
Definition keeps (exact : Prop) (a b : str) : Prop :=
  a `sublist_of` b ∧ (exact → a = b).

(** The visible characters the loop over the lines holds: those of the
    segments emitted and those of the lines accumulated. *)
Definition acc_content (st : hstate) : str :=
  content_of (segments st) ++ nows (concat (current_text st)).

(** The two splitting stages of [parse], before the final filter. *)
Definition split_stages (self : TextParser) (txt : str)
    : res (list TextSegment) :=
  if split_by_punctuation self
  then _split_by_punctuation (min_segment_length self) (pre_split self txt)
  else Ok (pre_split self txt).

(** Reconstruction of the text "modulo whitespace", in its weakest reading:
    the texts of the returned segments, concatenated, and the input have the
    same visible characters in the same order.  Removing all whitespace also
    removes the space that a remainder merge inserts, so the merges need no
    undoing. *)
Definition reconstructs (self : TextParser) (txt : str) : Prop :=
  ∃ segs, parse self txt = Ok segs ∧ content_of segs = nows txt.

(** The text and the segments of the "Intro" scenario. *)
Definition intro_text : str :=
  lit "# Intro" ++ [NL]
  ++ lit "Hello world. This is a test sentence that is long enough.".

Definition intro_header : TextSegment :=
  mkSegment (lit "Intro") (Some (lit "Intro")) true.
Definition intro_hello : TextSegment :=
  mkSegment (lit "Hello world.") (Some (lit "Intro")) false.
Definition intro_test : TextSegment :=
  mkSegment (lit "This is a test sentence that is long enough.")
            (Some (lit "Intro")) false.

(** ** Vocabulary of the further properties *)

(** A list of segments read under the header [h]: every header segment has
    its own text as header, every content segment has the text of the nearest
    header segment before it, or [h] when there is none. *)
Fixpoint tracks (h : option str) (segs : list TextSegment) : Prop :=
  match segs with
  | [] => True
  | s :: segs' =>
      if is_header s
      then header s = Some (text s) ∧ tracks (Some (text s)) segs'
      else header s = h ∧ tracks h segs'
  end.

(** The header in force after the segments [segs], starting from [h]. *)
Fixpoint header_after (h : option str) (segs : list TextSegment) : option str :=
  match segs with
  | [] => h
  | s :: segs' => header_after (if is_header s then Some (text s) else h) segs'
  end.

(** The header segments of a list, in order. *)
Definition headers_of (segs : list TextSegment) : list TextSegment :=
  filter (λ s, is_header s = true) segs.

(** A segment with a trimmed, non-empty text. *)
Definition trimmed (s : TextSegment) : Prop :=
  text s ≠ [] ∧ strip (text s) = text s.

(** Content segments are separated by header segments: a content segment
    comes first (when [first] allows it) or right after a header segment. *)
Fixpoint separated (first : bool) (segs : list TextSegment) : Prop :=
  match segs with
  | [] => True
  | s :: segs' =>
      if is_header s then separated true segs'
      else first = true ∧ separated false segs'
  end.

(** Whether a content segment may follow the segments [segs]. *)
Fixpoint open_after (first : bool) (segs : list TextSegment) : bool :=
  match segs with
  | [] => first
  | s :: segs' => open_after (is_header s) segs'
  end.

(** *** The logger *)

Section LoggerVocabulary.

Context `{Outside}.

(** A call of one of the four logging methods. *)
Inductive log_call : Type :=
| CallHeader (hdr : str)
| CallSegmentStart (segment_text : str) (hdr : option str)
| CallSegmentEnd (duration : float) (path : option str)
| CallInfo (msg : str).

Definition do_call (self : TTSLogger) (call : log_call) : TTSLogger :=
  match call with
  | CallHeader hdr => log_header self hdr
  | CallSegmentStart segment_text hdr => log_segment_start self segment_text hdr
  | CallSegmentEnd duration path => log_segment_end self duration path
  | CallInfo msg => log_info self msg
  end.

(** The entry a call leaves in the log, when the clock says [now]. *)
Definition call_entry (now : datetime) (call : log_call) : LogEntry :=
  match call with
  | CallHeader hdr => mkEntry now (lit "# " ++ hdr) None None
  | CallSegmentStart _ hdr => mkEntry now (segment_start_message hdr) None None
  | CallSegmentEnd duration path =>
      mkEntry now
        (lit "Segment finished (duration: " ++ format_2f duration ++ lit "s)")
        (Some duration) path
  | CallInfo msg => mkEntry now msg None None
  end.

(** The line of the log file that gives the total duration. *)
Definition total_line (total_duration : float) : str :=
  lit "Total duration: " ++ format_2f total_duration ++ lit " seconds ("
  ++ format_2f (float_div60 total_duration) ++ lit " minutes)" ++ [NL].

(** The writes of [write_log] for the entries. *)
Definition entry_lines (self : TTSLogger) (entry : LogEntry) : list str :=
  [format_timestamp self (timestamp entry) ++ lit " " ++ message entry ++ [NL]]
  ++ (if truthy_opt (segment_path entry)
      then [lit "  File: " ++ default [] (segment_path entry) ++ [NL]]
      else []).

End LoggerVocabulary.

(** An outside world for examples: dates and floats are integers, the clock
    counts its calls. *)
Definition sample_outside : Outside := {|
  datetime := Z;
  float := Z;
  clock := Z.of_nat;
  elapsed_seconds := λ start dt, (dt - start)%Z;
  elapsed_float := λ start dt, (dt - start)%Z;
  float_zero := 0%Z;
  float_add := Z.add;
  float_sum := foldl Z.add 0%Z;
  float_div60 := λ x, (x / 60)%Z;
  float_truthy := λ x, negb (x =? 0)%Z;
  format_2f := format_d 0
|}.

(** *** The pipeline *)

Section PipelineVocabulary.

Context `{Engine}.

(** The audio file and the duration of a segment, when it is a content
    segment and its synthesis succeeds. *)
Definition segment_output (segments_dir : str) (speaker : exception + option str)
    (i : nat) (segment : TextSegment) : option (str * float) :=
  if is_header segment then None
  else
    match try_synthesize speaker i segment (segment_path_of segments_dir i) with
    | inr duration => Some (segment_path_of segments_dir i, duration)
    | inl _ => None
    end.

Fixpoint outputs_from (segments_dir : str) (speaker : exception + option str)
    (i : nat) (segs : list TextSegment) : list (str * float) :=
  match segs with
  | [] => []
  | segment :: segs' =>
      match segment_output segments_dir speaker i segment with
      | Some o => o :: outputs_from segments_dir speaker (S i) segs'
      | None => outputs_from segments_dir speaker (S i) segs'
      end
  end.

(** The logging calls for a segment, under the header text [hdr] seen last. *)
Definition segment_calls (segments_dir : str) (speaker : exception + option str)
    (hdr : option str) (i : nat) (segment : TextSegment) : list log_call :=
  if is_header segment then [CallHeader (text segment)]
  else
    CallSegmentStart (text segment) hdr
    :: match try_synthesize speaker i segment (segment_path_of segments_dir i) with
       | inr duration =>
           [CallSegmentEnd duration (Some (segment_path_of segments_dir i))]
       | inl e =>
           [CallInfo (lit "Error processing segment " ++ decimal (N.of_nat i)
                      ++ lit ": " ++ exception_str e)]
       end.

Fixpoint calls_from (segments_dir : str) (speaker : exception + option str)
    (hdr : option str) (i : nat) (segs : list TextSegment) : list log_call :=
  match segs with
  | [] => []
  | segment :: segs' =>
      segment_calls segments_dir speaker hdr i segment
      ++ calls_from segments_dir speaker
           (if is_header segment then Some (text segment) else hdr) (S i) segs'
  end.

(** The duration a call adds to the total. *)
Definition call_duration (call : log_call) : option float :=
  match call with
  | CallSegmentEnd duration _ => if float_truthy duration then Some duration else None
  | _ => None
  end.

End PipelineVocabulary.

(** An engine for examples: it fails on the segments with an odd index and
    takes 2 seconds for the others. *)
Definition sample_engine : @Engine sample_outside := {|
  exception := unit;
  exception_str := λ _, lit "failed";
  path_join := λ dir name, dir ++ lit "/" ++ name;
  synthesize := λ i _ _ _,
    if Nat.even i then inr (2%Z : @float sample_outside) else inl ()
|}.

(** The header segment a line gives, when it is a header line. *)
Definition header_of_line (line : str) : option TextSegment :=
  (λ group2, mkSegment (strip group2) (Some (strip group2)) true)
  <$> Re.header_match (strip line).

(** A line of [#] characters only. *)
Definition hashes_only (line : str) : Prop :=
  line ≠ [] ∧ Forall (λ c, c = Re.HASH) line.

(** ** Facts about the string operations *)

Section StringFacts.

Lemma visible_not_blank c : visible c ↔ ¬ blank c.
Proof. unfold visible, blank. destruct (isspace c); naive_solver. Qed.

Lemma blank_NL : blank NL.
Proof. reflexivity. Qed.

Lemma blank_SPACE : blank SPACE.
Proof. reflexivity. Qed.

Lemma take_drop_while p s : take_while p s ++ drop_while p s = s.
Proof.
  induction s as [|c s IH]; simpl; [done|].
  destruct (p c); simpl; [by rewrite IH | done].
Qed.

Lemma take_while_Forall p s : Forall (λ c, p c = true) (take_while p s).
Proof.
  induction s as [|c s IH]; simpl; [constructor|].
  destruct (p c) eqn:E; [by constructor | constructor].
Qed.

Lemma drop_while_head p s c r : drop_while p s = c :: r → p c = false.
Proof.
  induction s as [|d s IH]; simpl; [done|].
  destruct (p d) eqn:E; [done|]. intros [= -> ->]. done.
Qed.

Lemma drop_while_all p s : Forall (λ c, p c = true) s → drop_while p s = [].
Proof. induction 1 as [|c s Hc _ IH]; simpl; [done|]. by rewrite Hc. Qed.

Lemma drop_while_stop p a c s :
  Forall (λ c, p c = true) a → p c = false → drop_while p (a ++ c :: s) = c :: s.
Proof.
  induction 1 as [|d a Hd _ IH]; simpl; intros Hc; [by rewrite Hc|].
  rewrite Hd. by apply IH.
Qed.

Lemma nows_app a b : nows (a ++ b) = nows a ++ nows b.
Proof. apply filter_app. Qed.

Lemma nows_cons c s : nows (c :: s) = nows [c] ++ nows s.
Proof. apply (nows_app [c] s). Qed.

Lemma nows_blank a : Forall blank a → nows a = [].
Proof.
  induction 1 as [|c a Hc _ IH]; [done|].
  unfold nows. rewrite filter_cons_False; [done|].
  intros Hv. by apply visible_not_blank in Hv.
Qed.

Lemma nows_nil_iff s : nows s = [] ↔ Forall blank s.
Proof.
  split; [|apply nows_blank].
  induction s as [|c s IH]; [constructor|].
  unfold nows. destruct (decide (visible c)) as [Hv|Hv].
  - by rewrite filter_cons_True.
  - rewrite filter_cons_False by done. intros H. constructor; [|by apply IH].
    unfold visible, blank in *. by destruct (isspace c).
Qed.

Lemma truthy_true {A} (l : list A) : truthy l = true ↔ l ≠ [].
Proof. by destruct l. Qed.

Lemma truthy_false {A} (l : list A) : truthy l = false ↔ l = [].
Proof. by destruct l. Qed.

Lemma lstrip_spec s :
  ∃ a, s = a ++ lstrip s ∧ Forall blank a ∧ ∀ c, head (lstrip s) = Some c → visible c.
Proof.
  exists (take_while isspace s). split_and!.
  - by rewrite take_drop_while.
  - apply take_while_Forall.
  - intros c Hc. unfold lstrip in Hc.
    destruct (drop_while isspace s) as [|d r] eqn:E; simplify_eq/=.
    by apply drop_while_head in E.
Qed.

Lemma rstrip_spec s :
  ∃ b, s = rstrip s ++ b ∧ Forall blank b ∧ ∀ c, last (rstrip s) = Some c → visible c.
Proof.
  destruct (lstrip_spec (reverse s)) as (a & Hs & Ha & Hh).
  exists (reverse a). split_and!.
  - unfold rstrip. rewrite <- reverse_app. unfold lstrip in Hs. rewrite <- Hs.
    by rewrite reverse_involutive.
  - by apply Forall_reverse.
  - intros c. unfold rstrip. rewrite last_reverse. apply Hh.
Qed.

Lemma strip_spec s :
  ∃ a b, s = a ++ strip s ++ b ∧ Forall blank a ∧ Forall blank b ∧ stripped (strip s).
Proof.
  destruct (lstrip_spec s) as (a & Hs & Ha & Hh).
  destruct (rstrip_spec (lstrip s)) as (b & Hl & Hb & Hlast).
  exists a, b. unfold strip, stripped. split_and!; try done.
  - by rewrite <- Hl.
  - intros c Hc. apply Hh. rewrite Hl.
    destruct (rstrip (lstrip s)); by simplify_eq/=.
Qed.

Lemma strip_fix t : stripped t → strip t = t.
Proof.
  intros [Hh Hl].
  assert (lstrip t = t) as Ht.
  { destruct t as [|c r]; [done|]. unfold lstrip. simpl.
    by rewrite (Hh c eq_refl). }
  unfold strip. rewrite Ht. unfold rstrip.
  destruct (reverse t) as [|c r] eqn:E.
  - apply (f_equal reverse) in E. rewrite reverse_involutive in E. by subst.
  - simpl. assert (visible c) as ->.
    { apply Hl. rewrite <- (reverse_involutive t), E, last_reverse. done. }
    by rewrite <- E, reverse_involutive.
Qed.

Lemma strip_idem s : strip (strip s) = strip s.
Proof. destruct (strip_spec s) as (a & b & _ & _ & _ & H). by apply strip_fix. Qed.

Lemma nows_strip s : nows (strip s) = nows s.
Proof.
  destruct (strip_spec s) as (a & b & Hs & Ha & Hb & _).
  rewrite Hs at 2. rewrite !nows_app, (nows_blank a), (nows_blank b) by done.
  by rewrite app_nil_r.
Qed.

Lemma strip_nil_iff s : strip s = [] ↔ Forall blank s.
Proof.
  split.
  - intros H. destruct (strip_spec s) as (a & b & Hs & Ha & Hb & _).
    rewrite Hs, H. simpl. by apply Forall_app.
  - intros H. unfold strip, lstrip. by rewrite (drop_while_all _ _ H).
Qed.

Lemma strip_nows_nil s : strip s = [] ↔ nows s = [].
Proof. by rewrite strip_nil_iff, nows_nil_iff. Qed.

(** What [strip] leaves is non-empty exactly when the text has a visible
    character. *)
Lemma strip_nonempty s : strip s ≠ [] ↔ Exists visible s.
Proof.
  rewrite strip_nows_nil. unfold nows.
  induction s as [|c s IH]; [rewrite Exists_nil; by split|].
  rewrite Exists_cons. destruct (decide (visible c)).
  - rewrite filter_cons_True by done. split; [by left | done].
  - rewrite filter_cons_False by done. rewrite IH.
    split; [by right | by intros [?|?]].
Qed.

Lemma drop_while_keeps_tail p u c v :
  p c = false → ∃ y, drop_while p (u ++ c :: v) = y ++ c :: v.
Proof.
  intros Hc. induction u as [|d u IH]; simpl.
  { rewrite Hc. by exists []. }
  destruct (p d); [done|]. by exists (d :: u).
Qed.

(** Trimming a text that starts with a trimmed, non-empty text keeps that
    start. *)
Lemma strip_prefix a x : stripped a → a ≠ [] → a `prefix_of` strip (a ++ x).
Proof.
  intros [Hh Hl] Hne.
  assert (lstrip (a ++ x) = a ++ x) as Hlstrip.
  { destruct a as [|c a]; [done|]. unfold lstrip. simpl. by rewrite (Hh c eq_refl). }
  unfold strip. rewrite Hlstrip. unfold rstrip. rewrite reverse_app.
  destruct (reverse a) as [|c v] eqn:E.
  { apply (f_equal reverse) in E. rewrite reverse_involutive in E. done. }
  assert (isspace c = false) as Hc.
  { apply Hl. by rewrite <- (reverse_involutive a), E, last_reverse. }
  destruct (drop_while_keeps_tail isspace (reverse x) c v Hc) as [y ->].
  rewrite reverse_app, <- E, reverse_involutive. by exists (reverse y).
Qed.

End StringFacts.

(** ** Facts about header splitting *)

Section HeaderFacts.

Lemma take_while_id p s : Forall (λ c, p c = true) s → take_while p s = s.
Proof. induction 1 as [|c s Hc _ IH]; simpl; [done|]. by rewrite Hc, IH. Qed.

Lemma take_while_prefix p s : ∃ r, s = take_while p s ++ r.
Proof. exists (drop_while p s). by rewrite take_drop_while. Qed.

Lemma split_no_sep sep s : Forall (λ l, sep ∉ l) (Py.split sep s).
Proof.
  induction s as [|c s IH]; simpl.
  { constructor; [apply not_elem_of_nil | constructor]. }
  destruct (N.eqb_spec c sep) as [->|Hne].
  { constructor; [apply not_elem_of_nil | done]. }
  destruct (Py.split sep s) as [|l ls].
  { constructor; [|constructor]. rewrite not_elem_of_cons.
    split; [congruence | apply not_elem_of_nil]. }
  apply Forall_cons in IH as [Hl Hls].
  constructor; [|done]. rewrite not_elem_of_cons. split; [congruence | done].
Qed.

(** A match of the header pattern: the hashes, the whitespace, and group 2,
    which runs to the end of the line. *)
Lemma dot_plus_eol_spec r g :
  Re.dot_plus_eol r = Some g → g = take_while (λ c, negb (c =? NL)) r ∧ g ≠ [].
Proof.
  unfold Re.dot_plus_eol. destruct (take_while _ r); [done|].
  by intros [= <-].
Qed.

Lemma spaces_then_text_spec s g :
  Re.spaces_then_text s = Some g →
  ∃ p r, s = p ++ r ∧ Forall blank p
         ∧ g = take_while (λ c, negb (c =? NL)) r ∧ g ≠ [].
Proof.
  revert g. induction s as [|c s IH]; intros g; simpl; [done|].
  destruct (isspace c) eqn:Hc; [|done].
  destruct (Re.spaces_then_text s) as [g'|].
  - intros [= <-]. destruct (IH g' eq_refl) as (p & r & -> & Hp & Hg & Hne).
    exists (c :: p), r. split_and!; try done. by constructor.
  - intros H. apply dot_plus_eol_spec in H as [Hg Hne].
    exists [c], s. split_and!; try done. by constructor.
Qed.

Lemma hashes_then_spec n s g :
  Re.hashes_then n s = Some g →
  ∃ h p r, s = h ++ p ++ r ∧ Forall (λ c, c = Re.HASH) h ∧ Forall blank p
           ∧ g = take_while (λ c, negb (c =? NL)) r ∧ g ≠ [].
Proof.
  revert s g. induction n as [|n IH]; intros [|c s] g; simpl; try done.
  unfold Re.is_hash. destruct (N.eqb_spec c Re.HASH) as [->|]; [|done].
  destruct (Re.hashes_then n s) as [g'|] eqn:E.
  - intros [= <-]. destruct (IH _ _ E) as (h & p & r & -> & Hh & Hp & Hg & Hne).
    exists (Re.HASH :: h), p, r. split_and!; try done. by constructor.
  - intros H. apply spaces_then_text_spec in H as (p & r & -> & Hp & Hg & Hne).
    exists [Re.HASH], p, r. split_and!; try done. by repeat constructor.
Qed.

(** On a trimmed line (no newline inside), group 2 of a header match has a
    visible character: the header text is not empty. *)
Lemma header_text_nonempty line g :
  NL ∉ line → Re.header_match (strip line) = Some g → strip (strip g) ≠ [].
Proof.
  intros Hnl Hm. rewrite strip_idem. apply strip_nonempty.
  apply hashes_then_spec in Hm as (h & p & r & Hs & _ & Hp & Hg & Hne).
  destruct (strip_spec line) as (a & b & Hl & _ & _ & _ & Hlast).
  assert (NL ∉ r) as Hr.
  { intros Hin. apply Hnl. rewrite Hl, Hs. rewrite !elem_of_app. auto. }
  assert (g = r) as ->.
  { rewrite Hg. apply take_while_id. apply Forall_forall. intros c Hc.
    destruct (N.eqb_spec c NL) as [->|]; done. }
  destruct (last r) as [c|] eqn:E; [|by apply last_None in E].
  assert (visible c) as Hv.
  { apply Hlast. rewrite Hs, !last_app, E. done. }
  apply Exists_exists. exists c. split; [|done]. by apply last_Some_elem_of.
Qed.

(** What the loop over the lines keeps true of every segment it emits. *)
Lemma save_current_Forall (Q : TextSegment → Prop) st :
  (∀ t hdr, t ≠ [] → strip t = t → Q (mkSegment t hdr false)) →
  Forall Q (segments st) → Forall Q (save_current st).
Proof.
  intros HQ Hst. unfold save_current.
  destruct (truthy (current_text st)); [|done].
  destruct (truthy _) eqn:E; [|done].
  apply Forall_app. split; [done|]. constructor; [|constructor].
  apply HQ; [by apply truthy_true | apply strip_idem].
Qed.

Lemma header_loop_Forall (Q : TextSegment → Prop) lines :
  (∀ t hdr, t ≠ [] → strip t = t → Q (mkSegment t hdr false)) →
  (∀ line g, line ∈ lines → Re.header_match (strip line) = Some g →
             Q (mkSegment (strip g) (Some (strip g)) true)) →
  ∀ st, Forall Q (segments st) → Forall Q (segments (foldl header_step st lines)).
Proof.
  intros HQ. induction lines as [|line lines IH]; intros HH st Hst; simpl; [done|].
  apply IH.
  { intros l g Hl. apply HH. by right. }
  unfold header_step. destruct (Re.header_match (strip line)) as [g|] eqn:E.
  - simpl. apply Forall_app. split; [by apply save_current_Forall|].
    constructor; [|constructor]. apply (HH line); [by left | done].
  - by destruct (truthy (strip line)).
Qed.

Lemma split_by_headers_Forall (Q : TextSegment → Prop) txt :
  (∀ t hdr, t ≠ [] → strip t = t → Q (mkSegment t hdr false)) →
  (∀ line g, line ∈ Py.split NL txt → Re.header_match (strip line) = Some g →
             Q (mkSegment (strip g) (Some (strip g)) true)) →
  Forall Q (_split_by_headers txt).
Proof.
  intros HQ HH. unfold _split_by_headers. apply save_current_Forall; [done|].
  apply header_loop_Forall; [done | done | constructor].
Qed.

(** Without header lines the loop emits nothing and keeps the initial
    header. *)
Lemma header_loop_no_headers lines : ∀ st,
  Forall (λ line, Re.header_match (strip line) = None) lines →
  segments (foldl header_step st lines) = segments st
  ∧ current_header (foldl header_step st lines) = current_header st.
Proof.
  induction lines as [|line lines IH]; intros st Hno; simpl; [done|].
  apply Forall_cons in Hno as [Hline Hno].
  destruct (IH (header_step st line) Hno) as [-> ->].
  unfold header_step. rewrite Hline. by destruct (truthy (strip line)).
Qed.

Lemma split_by_headers_no_headers txt :
  no_header_lines txt →
  Forall (λ s, is_header s = false ∧ header s = None) (_split_by_headers txt).
Proof.
  intros Hno. unfold _split_by_headers, save_current.
  destruct (header_loop_no_headers _ (mkH [] None []) Hno) as [Hs Hh].
  simpl in *. rewrite Hs, Hh.
  destruct (truthy (current_text _)); [|constructor].
  destruct (truthy (strip _)); repeat constructor.
Qed.

End HeaderFacts.

(** ** Facts about the sentence-end pattern *)

Section SentenceEndFacts.

Lemma sentence_end_visible c : sentence_end c → visible c.
Proof.
  unfold sentence_end, Re.is_sentence_end. intros H.
  apply orb_prop in H as [H|H]; [apply orb_prop in H as [H|H]|];
    apply N.eqb_eq in H; by subst.
Qed.

Lemma spaces_spec s rest :
  Re.spaces s = Some rest → ∃ w, s = w ++ rest ∧ w ≠ [] ∧ Forall blank w.
Proof.
  destruct s as [|c s]; simpl; [done|].
  destruct (isspace c) eqn:Hc; [|done]. intros [= <-].
  exists (c :: take_while isspace s). split_and!.
  - simpl. by rewrite take_drop_while.
  - done.
  - constructor; [done | apply take_while_Forall].
Qed.

(** A match: the punctuation run (group 1), then the whitespace it eats. *)
Lemma sentence_end_at_spec s g rest :
  Re.sentence_end_at s = Some (g, rest) →
  ∃ w, s = g ++ w ++ rest ∧ g ≠ [] ∧ Forall sentence_end g
       ∧ w ≠ [] ∧ Forall blank w.
Proof.
  revert g rest. induction s as [|c s IH]; intros g rest; simpl; [done|].
  destruct (Re.is_sentence_end c) eqn:Hc; [|done].
  destruct (Re.sentence_end_at s) as [[g' rest']|].
  - intros [= <- <-]. destruct (IH _ _ eq_refl) as (w & -> & _ & Hg & Hw & Hb).
    exists w. split_and!; try done. by constructor.
  - destruct (Re.spaces s) as [rest'|] eqn:E; [|done]. intros [= <- <-].
    apply spaces_spec in E as (w & -> & Hw & Hb).
    exists w. split_and!; try done. by repeat constructor.
Qed.

Lemma search_spec s pre g rest :
  Re.search s = Some (pre, g, rest) →
  ∃ w, s = pre ++ g ++ w ++ rest ∧ g ≠ [] ∧ Forall sentence_end g
       ∧ w ≠ [] ∧ Forall blank w.
Proof.
  revert pre g rest. induction s as [|c s IH]; intros pre g rest.
  { simpl. done. }
  cbn [Re.search]. destruct (Re.sentence_end_at (c :: s)) as [[g' rest']|] eqn:E.
  - intros [= <- <- <-]. by apply sentence_end_at_spec in E.
  - destruct (Re.search s) as [[[pre' g'] rest']|]; [|done].
    intros [= <- <- <-]. destruct (IH _ _ _ eq_refl) as (w & -> & H).
    by exists w.
Qed.

Lemma search_shorter s pre g rest :
  Re.search s = Some (pre, g, rest) → (length rest < length s)%nat.
Proof.
  intros H. apply search_spec in H as (w & -> & Hg & _ & Hw & _).
  rewrite !length_app. destruct g, w; simpl; try done; lia.
Qed.

(** The rounds given to [Re.split] are enough: more change nothing. *)
Lemma split_fuel_enough fuel1 : ∀ fuel2 s,
  (length s ≤ fuel1)%nat → (length s ≤ fuel2)%nat →
  Re.split_from fuel1 s = Re.split_from fuel2 s.
Proof.
  induction fuel1 as [|fuel1 IH]; intros fuel2 s H1 H2.
  { destruct s; [|simpl in H1; lia]. by destruct fuel2. }
  destruct fuel2 as [|fuel2].
  { destruct s; [|simpl in H2; lia]. done. }
  simpl. destruct (Re.search s) as [[[pre g] rest]|] eqn:E; [|done].
  apply search_shorter in E. f_equal. f_equal. apply IH; lia.
Qed.

Lemma split_from_shape fuel : ∀ s,
  ∃ pairs final,
    Re.split_from fuel s = interleave pairs final
    ∧ Forall (λ tp, tp.2 ≠ [] ∧ Forall sentence_end tp.2) pairs.
Proof.
  induction fuel as [|fuel IH]; intros s; simpl.
  { by exists [], s. }
  destruct (Re.search s) as [[[pre g] rest]|] eqn:E; [|by exists [], s].
  apply search_spec in E as (w & _ & Hne & Hg & _).
  destruct (IH rest) as (pairs & final & -> & Hall).
  exists ((pre, g) :: pairs), final. split; [done|]. by constructor.
Qed.

Lemma interleave_odd_part pairs final : ∀ pre t p post,
  interleave pairs final = pre ++ t :: p :: post →
  Nat.even (length pre) = true → (t, p) ∈ pairs.
Proof.
  induction pairs as [|[t0 p0] pairs IH]; intros pre t p post; simpl.
  { destruct pre as [|a [|b pre]]; done. }
  destruct pre as [|a [|b pre]]; simpl.
  - intros [= <- <- _] _. by left.
  - done.
  - intros [= _ _ H] Hev. right. by eapply IH.
Qed.

(** The punctuation part of a candidate sentence is a non-empty run of
    sentence-end characters. *)
Lemma split_odd_part s pre t p post :
  Re.split s = pre ++ t :: p :: post → Nat.even (length pre) = true →
  p ≠ [] ∧ Forall sentence_end p.
Proof.
  unfold Re.split. intros Hs Hev.
  destruct (split_from_shape (length s) s) as (pairs & final & Hsp & Hall).
  rewrite Hsp in Hs. apply interleave_odd_part in Hs; [|done].
  by apply (proj1 (Forall_forall _ _) Hall (t, p)).
Qed.

(** Splitting loses whitespace only. *)
Lemma nows_split_from fuel : ∀ s, nows (concat (Re.split_from fuel s)) = nows s.
Proof.
  induction fuel as [|fuel IH]; intros s; simpl.
  { by rewrite app_nil_r. }
  destruct (Re.search s) as [[[pre g] rest]|] eqn:E; simpl; [|by rewrite app_nil_r].
  apply search_spec in E as (w & -> & _ & _ & _ & Hw).
  rewrite !nows_app, IH. by rewrite (nows_blank w).
Qed.

End SentenceEndFacts.

(** ** Facts about punctuation splitting *)

Section PunctuationFacts.

Variable min_len : Z.

Lemma index_last_snoc {A} (l : list A) x : index_last (l ++ [x]) = Ok x.
Proof. unfold index_last. by rewrite last_snoc. Qed.

Lemma set_last_snoc {A} (l : list A) x y :
  <[pred (length (l ++ [x])) := y]> (l ++ [x]) = l ++ [y].
Proof.
  rewrite length_app. simpl. replace (pred (length l + 1)) with (length l + 0)%nat by lia.
  by rewrite insert_app_r.
Qed.

Lemma remainder_step_empty hdr cur result :
  strip cur = [] → remainder_step min_len hdr cur result = Ok result.
Proof. intros H. unfold remainder_step. by rewrite H. Qed.

Lemma remainder_step_long hdr cur result :
  strip cur ≠ [] → (min_len ≤ len (strip cur))%Z →
  remainder_step min_len hdr cur result = Ok (result ++ [fresh hdr (strip cur)]).
Proof.
  intros H1 H2. unfold remainder_step.
  apply truthy_true in H1. rewrite H1. by rewrite bool_decide_eq_true_2.
Qed.

Lemma remainder_step_merge hdr cur init prev :
  strip cur ≠ [] → (len (strip cur) < min_len)%Z → is_header prev = false →
  remainder_step min_len hdr cur (init ++ [prev])
  = Ok (init ++ [merged prev (strip cur)]).
Proof.
  intros H1 H2 H3. unfold remainder_step.
  apply truthy_true in H1. rewrite H1.
  rewrite bool_decide_eq_false_2 by lia.
  assert (truthy (init ++ [prev]) = true) as -> by (by destruct init).
  rewrite index_last_snoc. simpl. rewrite H3. simpl.
  by rewrite set_last_snoc.
Qed.

Lemma remainder_step_alone hdr cur result :
  strip cur ≠ [] → (len (strip cur) < min_len)%Z →
  (∀ prev, last result = Some prev → is_header prev = true) →
  remainder_step min_len hdr cur result = Ok (result ++ [fresh hdr (strip cur)]).
Proof.
  intros H1 H2 H3. unfold remainder_step.
  apply truthy_true in H1. rewrite H1.
  rewrite bool_decide_eq_false_2 by lia.
  destruct (last result) as [prev|] eqn:E.
  - apply last_Some in E as [init ->].
    assert (truthy (init ++ [prev]) = true) as -> by (by destruct init).
    rewrite index_last_snoc. simpl.
    by rewrite (H3 prev) by done.
  - apply last_None in E as ->. done.
Qed.

Lemma remainder_step_outcome hdr cur result :
  ∃ result', remainder_step min_len hdr cur result = Ok result'
             ∧ remainder_outcome min_len hdr cur result result'.
Proof.
  destruct (decide (strip cur = [])) as [He|He].
  { exists result. split; [by apply remainder_step_empty | by constructor]. }
  destruct (decide (min_len ≤ len (strip cur))%Z) as [Hl|Hl].
  { eexists. split; [by apply remainder_step_long | by constructor]. }
  destruct (last result) as [prev|] eqn:E.
  - apply last_Some in E as [init ->].
    destruct (is_header prev) eqn:Hh.
    + eexists. split; [|by constructor]. apply remainder_step_alone; [done|lia|].
      intros p. rewrite last_snoc. by intros [= <-].
    + eexists. split; [apply remainder_step_merge; [done|lia|done]|].
      eapply outcome_merge; [done|lia|done|done].
  - eexists. split; [|by constructor]. apply remainder_step_alone; [done|lia|].
    intros p. by rewrite E.
Qed.

(** The sentence loop only appends to [result]; what it appends does not
    depend on [result]. *)
Lemma sentence_loop_app hdr parts : ∀ i cur result,
  sentence_loop min_len hdr i parts cur result
  = (let '(c, e) := sentence_loop min_len hdr i parts cur [] in (c, result ++ e)).
Proof.
  induction parts as [|part parts IH]; intros i cur result; simpl.
  { by rewrite app_nil_r. }
  destruct (Nat.even i); [apply IH|].
  destruct (_ && _); simpl; [|apply IH].
  rewrite (IH _ _ (result ++ [_])), (IH _ _ [_]).
  destruct (sentence_loop min_len hdr (S i) parts [] []) as [c e].
  by rewrite app_assoc.
Qed.

Lemma sentence_loop_kept hdr parts : ∀ i cur c e,
  sentence_loop min_len hdr i parts cur [] = (c, e) → Forall (kept min_len hdr) e.
Proof.
  induction parts as [|part parts IH]; intros i cur c e; simpl.
  { intros [= <- <-]. constructor. }
  destruct (Nat.even i); [apply IH|].
  rewrite sentence_loop_app.
  destruct (sentence_loop min_len hdr (S i) parts [] []) as [c' e'] eqn:E.
  intros [= <- <-]. apply Forall_app. split; [|by eapply IH].
  destruct (truthy _) eqn:Ht; simpl; [|constructor].
  case_bool_decide; [|constructor].
  repeat constructor; simpl; [by apply truthy_true | by apply strip_idem | done].
Qed.

(** One round of the outer loop always succeeds. *)
Lemma punctuation_step_outcome result segment :
  ∃ result', punctuation_step min_len result segment = Ok result'
  ∧ if is_header segment then result' = result ++ [segment]
    else ∃ cur e,
      sentence_loop min_len (header segment) 0 (Re.split (text segment)) [] []
      = (cur, e)
      ∧ remainder_outcome min_len (header segment) cur (result ++ e) result'.
Proof.
  unfold punctuation_step. destruct (is_header segment); [by eexists|].
  rewrite sentence_loop_app.
  destruct (sentence_loop min_len _ 0 _ [] []) as [cur e].
  destruct (remainder_step_outcome (header segment) cur (result ++ e))
    as (result' & Hr & Ho).
  exists result'. split; [done|]. by exists cur, e.
Qed.

(** A property of single segments that the outer loop keeps: it has to hold
    of the header segments passed through, of fresh segments under the header
    of an input segment, and to survive the append of a remainder. *)
Lemma punctuation_step_Forall (Q : TextSegment → Prop) result segment result' :
  (is_header segment = true → Q segment) →
  (is_header segment = false →
   ∀ t, t ≠ [] → strip t = t → Q (fresh (header segment) t)) →
  (∀ prev rem, Q prev → is_header prev = false → rem ≠ [] → strip rem = rem →
               Q (merged prev rem)) →
  Forall Q result →
  punctuation_step min_len result segment = Ok result' → Forall Q result'.
Proof.
  intros Hhead Hfresh Hmerge Hres Hstep.
  destruct (punctuation_step_outcome result segment) as (r & Hr & Ho).
  rewrite Hr in Hstep. injection Hstep as ->.
  destruct (is_header segment).
  { subst. apply Forall_app. split; [done|]. constructor; [by apply Hhead | constructor]. }
  destruct Ho as (cur & e & Hloop & Hout).
  assert (Forall Q (result ++ e)) as Hall.
  { apply Forall_app. split; [done|].
    apply sentence_loop_kept in Hloop.
    eapply Forall_impl; [exact Hloop|].
    intros [t h b] (Hh & Hb & Ht & Hs & _). simpl in *. subst.
    by apply Hfresh. }
  destruct Hout as [He|He|init prev He Hl Heq Hh].
  - done.
  - apply Forall_app. split; [done|]. constructor; [|constructor].
    apply Hfresh; [done | done | apply strip_idem].
  - rewrite Heq in Hall. apply Forall_app in Hall as [Hinit Hprev].
    apply Forall_app. split; [done|]. constructor; [|constructor].
    rewrite Forall_singleton in Hprev.
    apply Hmerge; [done | done | done | apply strip_idem].
Qed.

Lemma punctuation_loop_Forall (Q : TextSegment → Prop) segs :
  (∀ s, s ∈ segs → is_header s = true → Q s) →
  (∀ s t, s ∈ segs → is_header s = false → t ≠ [] → strip t = t →
          Q (fresh (header s) t)) →
  (∀ prev rem, Q prev → is_header prev = false → rem ≠ [] → strip rem = rem →
               Q (merged prev rem)) →
  ∀ result result', Forall Q result →
  punctuation_loop min_len segs result = Ok result' → Forall Q result'.
Proof.
  intros Hhead Hfresh Hmerge.
  induction segs as [|seg segs IH]; intros result result' Hres; simpl.
  { by intros [= <-]. }
  destruct (punctuation_step min_len result seg) as [r|] eqn:E; [|done]. simpl.
  apply IH.
  - intros s Hs. apply Hhead. by right.
  - intros s t Hs. apply Hfresh. by right.
  - eapply punctuation_step_Forall; [| | exact Hmerge | exact Hres | exact E].
    + apply Hhead. by left.
    + intros Hh t. apply Hfresh; [by left | done].
Qed.

Lemma punctuation_loop_total segs : ∀ result,
  ∃ result', punctuation_loop min_len segs result = Ok result'.
Proof.
  induction segs as [|seg segs IH]; intros result; simpl; [by eexists|].
  destruct (punctuation_step_outcome result seg) as (r & -> & _). simpl.
  apply IH.
Qed.

Lemma punctuation_loop_app segs1 segs2 : ∀ result,
  punctuation_loop min_len (segs1 ++ segs2) result
  = (r ← punctuation_loop min_len segs1 result; punctuation_loop min_len segs2 r).
Proof.
  induction segs1 as [|seg segs1 IH]; intros result; simpl; [done|].
  destruct (punctuation_step min_len result seg) as [r|]; simpl; [apply IH | done].
Qed.

(** The segment processed last works on what all earlier ones emitted. *)
Lemma split_by_punctuation_snoc segs segment result :
  _split_by_punctuation min_len segs = Ok result →
  _split_by_punctuation min_len (segs ++ [segment])
  = punctuation_step min_len result segment.
Proof.
  unfold _split_by_punctuation. intros H.
  rewrite punctuation_loop_app, H. simpl.
  by destruct (punctuation_step min_len result segment).
Qed.

Lemma sentence_loop_cat hdr parts1 parts2 : ∀ i cur result,
  sentence_loop min_len hdr i (parts1 ++ parts2) cur result
  = (let '(c, r) := sentence_loop min_len hdr i parts1 cur result in
     sentence_loop min_len hdr (i + length parts1) parts2 c r).
Proof.
  induction parts1 as [|part parts1 IH]; intros i cur result; simpl.
  { by rewrite Nat.add_0_r. }
  replace (i + S (length parts1))%nat with (S i + length parts1)%nat by lia.
  destruct (Nat.even i); apply IH.
Qed.

(** After a punctuation part (an odd index) [current_sentence] is empty
    again. *)
Lemma sentence_loop_cur_empty hdr parts : ∀ i cur result,
  Nat.even (i + length parts) = true → parts ≠ [] ∨ cur = [] →
  (sentence_loop min_len hdr i parts cur result).1 = [].
Proof.
  induction parts as [|part parts IH]; intros i cur result Hev Hor; simpl.
  { by destruct Hor. }
  simpl in Hev. rewrite Nat.add_succ_r, Nat.even_succ in Hev.
  destruct (Nat.even i) eqn:Hi.
  - apply IH.
    + by rewrite Nat.add_succ_l, Nat.even_succ.
    + left. intros ->. simpl in Hev. rewrite Nat.add_0_r in Hev.
      rewrite <- Nat.negb_even, Hi in Hev. done.
  - apply IH; [|by right]. by rewrite Nat.add_succ_l, Nat.even_succ.
Qed.

(** The step of the loop at a candidate sentence: text part [t], punctuation
    part [p]. *)
Lemma sentence_loop_at_candidate hdr s pre t p post result :
  Re.split s = pre ++ t :: p :: post → Nat.even (length pre) = true →
  truthy (strip (t ++ p)) = true
  ∧ sentence_loop min_len hdr 0 (Re.split s) [] result
    = sentence_loop min_len hdr (length pre + 2) post []
        (if bool_decide (min_len ≤ len (strip (t ++ p)))%Z
         then (sentence_loop min_len hdr 0 pre [] result).2
              ++ [mkSegment (strip (t ++ p)) hdr false]
         else (sentence_loop min_len hdr 0 pre [] result).2).
Proof.
  intros Hs Hev.
  assert (truthy (strip (t ++ p)) = true) as Htruthy.
  { apply truthy_true, strip_nonempty. apply Exists_app. right.
    destruct (split_odd_part _ _ _ _ _ Hs Hev) as [Hne Hp].
    destruct p as [|c p]; [done|]. apply Forall_cons in Hp as [Hc _].
    left. by apply sentence_end_visible. }
  split; [done|].
  rewrite Hs, sentence_loop_cat.
  pose proof (sentence_loop_cur_empty hdr pre 0 [] result) as Hcur.
  destruct (sentence_loop min_len hdr 0 pre [] result) as [c r].
  assert (c = []) as -> by (apply Hcur; [done | by right]).
  change (0 + length pre)%nat with (length pre).
  cbn [sentence_loop snd]. rewrite Hev.
  rewrite Nat.even_succ, <- Nat.negb_even, Hev. cbn [negb app].
  rewrite Htruthy. cbn [andb].
  by replace (S (S (length pre))) with (length pre + 2)%nat by lia.
Qed.

(** Once emitted, a sentence stays: later rounds append segments, or append
    a remainder to the text of the last one. *)
Lemma remainder_outcome_carries c h hdr cur result result' :
  remainder_outcome min_len hdr cur result result' →
  Exists (carries c h) result → Exists (carries c h) result'.
Proof.
  intros [He|He|init prev He Hl -> Hh] Hex; [done| |].
  - apply Exists_app. by left.
  - apply Exists_app in Hex as [Hex|Hex]; apply Exists_app; [by left|right].
    apply Exists_cons in Hex as [(Hpre & Hhd & Hih)|Hex]; [|by apply Exists_nil in Hex].
    left. split_and!; [|done|done]. simpl. by apply prefix_app_r.
Qed.

Lemma punctuation_step_carries c h result segment result' :
  punctuation_step min_len result segment = Ok result' →
  Exists (carries c h) result → Exists (carries c h) result'.
Proof.
  intros Hstep Hex.
  destruct (punctuation_step_outcome result segment) as (r & Hr & Ho).
  rewrite Hr in Hstep. injection Hstep as ->.
  destruct (is_header segment).
  { subst. apply Exists_app. by left. }
  destruct Ho as (cur & e & _ & Hout).
  eapply remainder_outcome_carries; [exact Hout|]. apply Exists_app. by left.
Qed.

Lemma punctuation_loop_carries c h segs : ∀ result result',
  punctuation_loop min_len segs result = Ok result' →
  Exists (carries c h) result → Exists (carries c h) result'.
Proof.
  induction segs as [|seg segs IH]; intros result result'; simpl.
  { by intros [= <-]. }
  destruct (punctuation_step min_len result seg) as [r|] eqn:E; [|done]. simpl.
  intros H Hex. eapply IH; [exact H|]. by eapply punctuation_step_carries.
Qed.

(** A candidate sentence long enough is in what the round of its segment
    returns. *)
Lemma punctuation_step_emits segment pre t p post result result' :
  is_header segment = false →
  Re.split (text segment) = pre ++ t :: p :: post → Nat.even (length pre) = true →
  (min_len ≤ len (strip (t ++ p)))%Z →
  punctuation_step min_len result segment = Ok result' →
  Exists (carries (strip (t ++ p)) (header segment)) result'.
Proof.
  intros Hh Hs Hev Hlen Hstep.
  destruct (punctuation_step_outcome result segment) as (r & Hr & Ho).
  rewrite Hr in Hstep. injection Hstep as ->. rewrite Hh in Ho.
  destruct Ho as (cur & e & Hloop & Hout).
  eapply remainder_outcome_carries; [exact Hout|]. apply Exists_app. right.
  destruct (sentence_loop_at_candidate (header segment) _ _ _ _ _ [] Hs Hev)
    as [_ Hrun].
  rewrite Hrun, bool_decide_eq_true_2, sentence_loop_app in Hloop by done.
  destruct (sentence_loop min_len (header segment) (length pre + 2) post [] [])
    as [c' e'].
  injection Hloop as _ <-. apply Exists_app. left. apply Exists_app. right.
  left. by split_and!.
Qed.

Lemma split_by_punctuation_emits segs segment pre t p post out :
  segment ∈ segs → is_header segment = false →
  Re.split (text segment) = pre ++ t :: p :: post → Nat.even (length pre) = true →
  (min_len ≤ len (strip (t ++ p)))%Z →
  _split_by_punctuation min_len segs = Ok out →
  Exists (carries (strip (t ++ p)) (header segment)) out.
Proof.
  intros Hin Hh Hs Hev Hlen. unfold _split_by_punctuation.
  apply list_elem_of_split in Hin as (segs1 & segs2 & ->).
  rewrite punctuation_loop_app.
  destruct (punctuation_loop min_len segs1 []) as [r1|]; [|done].
  simpl. destruct (punctuation_step min_len r1 segment) as [r2|] eqn:E; [|done].
  simpl. intros Hloop. eapply punctuation_loop_carries; [exact Hloop|].
  by eapply punctuation_step_emits.
Qed.

End PunctuationFacts.

(** ** What the segments keep of the text *)

Section ContentFacts.

Lemma keeps_eq exact a b : a = b → keeps exact a b.
Proof. intros ->. by split. Qed.

Lemma keeps_impl (P Q : Prop) a b : (Q → P) → keeps P a b → keeps Q a b.
Proof. intros HQP [Hs He]. split; [done|]. auto. Qed.

Lemma keeps_app exact a b c d :
  keeps exact a b → keeps exact c d → keeps exact (a ++ c) (b ++ d).
Proof.
  intros [Hs1 He1] [Hs2 He2]. split; [by apply sublist_app|].
  intros H. by rewrite He1, He2.
Qed.

Lemma keeps_trans exact a b c : keeps exact a b → keeps exact b c → keeps exact a c.
Proof.
  intros [Hs1 He1] [Hs2 He2]. split; [by etrans|].
  intros H. by rewrite He1, He2.
Qed.

Lemma content_of_app a b : content_of (a ++ b) = content_of a ++ content_of b.
Proof. unfold content_of. by rewrite fmap_app, concat_app, nows_app. Qed.

Lemma content_of_one s : content_of [s] = nows (text s).
Proof. unfold content_of. simpl. by rewrite app_nil_r. Qed.

Lemma content_of_cons s l : content_of (s :: l) = nows (text s) ++ content_of l.
Proof. unfold content_of. simpl. by rewrite nows_app. Qed.

Lemma content_of_sublist l1 l2 :
  l1 `sublist_of` l2 → content_of l1 `sublist_of` content_of l2.
Proof.
  induction 1 as [|x l1 l2 _ IH|x l1 l2 _ IH]; [done| |].
  - rewrite !content_of_cons. by apply sublist_app.
  - rewrite content_of_cons. by apply sublist_inserts_l.
Qed.

Lemma filter_all {A} (P : A → Prop) `{∀ x, Decision (P x)} (l : list A) :
  Forall P l → filter P l = l.
Proof.
  induction 1 as [|x l Hx _ IH]; [done|].
  by rewrite filter_cons_True, IH.
Qed.

(** *** Header splitting *)

Lemma nows_concat_split s : nows (concat (Py.split NL s)) = nows s.
Proof.
  induction s as [|c s IH]; simpl; [done|].
  destruct (N.eqb_spec c NL) as [->|Hne]; simpl.
  { by rewrite IH, (nows_cons NL s). }
  rewrite (nows_cons c s), <- IH.
  destruct (Py.split NL s) as [|l ls]; simpl.
  - by rewrite app_nil_r.
  - apply nows_cons.
Qed.

Lemma nows_join parts : nows (join [NL] parts) = nows (concat parts).
Proof.
  induction parts as [|p parts IH]; [done|].
  destruct parts as [|q parts].
  { simpl. by rewrite app_nil_r. }
  change (join [NL] (p :: q :: parts)) with (p ++ [NL] ++ join [NL] (q :: parts)).
  change (concat (p :: q :: parts)) with (p ++ concat (q :: parts)).
  rewrite !nows_app, IH. by rewrite (nows_blank [NL]) by (by repeat constructor).
Qed.

Lemma nows_take_while p r : nows (take_while p r) `sublist_of` nows r.
Proof.
  rewrite <- (take_drop_while p r) at 2. rewrite nows_app.
  by apply sublist_inserts_r.
Qed.

(** The header text is made of characters of its line. *)
Lemma header_text_sublist line g :
  Re.header_match (strip line) = Some g → nows (strip g) `sublist_of` nows line.
Proof.
  intros Hm. apply hashes_then_spec in Hm as (h & p & r & Hs & _ & _ & -> & _).
  rewrite nows_strip, <- (nows_strip line), Hs, !nows_app.
  do 2 apply sublist_inserts_l. apply nows_take_while.
Qed.

Lemma content_save_current st : content_of (save_current st) = acc_content st.
Proof.
  unfold save_current, acc_content.
  destruct (truthy (current_text st)) eqn:Hc.
  - destruct (truthy (strip _)) eqn:Ht.
    + rewrite content_of_app, content_of_one. simpl.
      by rewrite nows_strip, nows_join.
    + apply truthy_false, strip_nows_nil in Ht. rewrite nows_join in Ht.
      by rewrite Ht, app_nil_r.
  - apply truthy_false in Hc. rewrite Hc. simpl. by rewrite app_nil_r.
Qed.

Lemma header_step_keeps st line :
  keeps (Re.header_match (strip line) = None)
        (acc_content (header_step st line)) (acc_content st ++ nows line).
Proof.
  unfold header_step. destruct (Re.header_match (strip line)) as [g|] eqn:E.
  - split; [|done]. unfold acc_content at 1. simpl.
    rewrite app_nil_r, content_of_app, content_save_current, content_of_one. simpl.
    apply sublist_app; [done|]. by apply header_text_sublist.
  - apply keeps_eq. destruct (truthy (strip line)) eqn:Ht.
    + unfold acc_content. simpl.
      by rewrite concat_app, nows_app; simpl; rewrite app_nil_r, app_assoc.
    + apply truthy_false, strip_nows_nil in Ht. by rewrite Ht, app_nil_r.
Qed.

Lemma header_loop_keeps lines : ∀ st,
  keeps (Forall (λ line, Re.header_match (strip line) = None) lines)
        (acc_content (foldl header_step st lines))
        (acc_content st ++ nows (concat lines)).
Proof.
  induction lines as [|line lines IH]; intros st; simpl.
  { apply keeps_eq. by rewrite app_nil_r. }
  eapply keeps_trans.
  - eapply keeps_impl; [|apply IH]. intros H. by apply Forall_cons in H as [_ H].
  - rewrite nows_app, app_assoc. apply keeps_app; [|by apply keeps_eq].
    eapply keeps_impl; [|apply header_step_keeps].
    intros H. by apply Forall_cons in H as [H _].
Qed.

Lemma split_by_headers_keeps txt :
  keeps (no_header_lines txt) (content_of (_split_by_headers txt)) (nows txt).
Proof.
  unfold _split_by_headers. rewrite content_save_current.
  rewrite <- (nows_concat_split txt).
  apply (header_loop_keeps (Py.split NL txt) (mkH [] None [])).
Qed.

Lemma pre_split_keeps self txt :
  keeps (split_by_headers self = false ∨ no_header_lines txt)
        (content_of (pre_split self txt)) (nows txt).
Proof.
  unfold pre_split. destruct (split_by_headers self).
  - eapply keeps_impl; [|apply split_by_headers_keeps]. by intros [?|?].
  - apply keeps_eq. rewrite content_of_one. simpl. apply nows_strip.
Qed.

(** *** Punctuation splitting *)

Variable min_len : Z.

Lemma sentence_loop_keeps hdr parts : ∀ i cur c e,
  sentence_loop min_len hdr i parts cur [] = (c, e) →
  keeps (min_len ≤ 1)%Z (content_of e ++ nows c) (nows cur ++ nows (concat parts)).
Proof.
  induction parts as [|part parts IH]; intros i cur c e; simpl.
  { intros [= <- <-]. apply keeps_eq. by rewrite app_nil_r. }
  destruct (Nat.even i).
  { intros H. apply IH in H. by rewrite !nows_app, <- app_assoc in *. }
  rewrite sentence_loop_app.
  destruct (sentence_loop min_len hdr (S i) parts [] []) as [c' e'] eqn:E.
  intros [= <- <-]. apply IH in E. simpl in E.
  rewrite content_of_app, nows_app, <- !app_assoc, (app_assoc (nows cur)).
  apply keeps_app; [|done]. rewrite <- nows_app.
  destruct (truthy _) eqn:Ht; simpl.
  - case_bool_decide as Hlen.
    + apply keeps_eq. rewrite content_of_one. simpl. apply nows_strip.
    + split; [apply sublist_nil_l|]. intros Hmin. exfalso. apply Hlen.
      apply truthy_true in Ht. unfold len.
      destruct (strip (cur ++ part)); [done|]. simpl length. lia.
  - apply keeps_eq. apply truthy_false, strip_nows_nil in Ht. by rewrite Ht.
Qed.

(** The remainder rule loses nothing, whichever way it goes. *)
Lemma remainder_outcome_content hdr cur result result' :
  remainder_outcome min_len hdr cur result result' →
  content_of result' = content_of result ++ nows cur.
Proof.
  intros [He|He|init prev He Hl -> Hh].
  - apply strip_nows_nil in He. by rewrite He, app_nil_r.
  - by rewrite content_of_app, content_of_one; simpl; rewrite nows_strip.
  - rewrite !content_of_app, !content_of_one. unfold merged, set_text.
    cbn [text]. rewrite !nows_app, nows_strip, <- app_assoc.
    by rewrite (nows_blank [SPACE]) by (by repeat constructor).
Qed.

Lemma punctuation_step_keeps result segment result' :
  punctuation_step min_len result segment = Ok result' →
  keeps (min_len ≤ 1)%Z (content_of result')
        (content_of result ++ nows (text segment)).
Proof.
  intros Hstep.
  destruct (punctuation_step_outcome min_len result segment) as (r & Hr & Ho).
  rewrite Hr in Hstep. injection Hstep as ->.
  destruct (is_header segment).
  { subst. apply keeps_eq. by rewrite content_of_app, content_of_one. }
  destruct Ho as (cur & e & Hloop & Hout).
  apply remainder_outcome_content in Hout. rewrite Hout, content_of_app, <- app_assoc.
  apply keeps_app; [by apply keeps_eq|].
  apply sentence_loop_keeps in Hloop. simpl in Hloop.
  unfold Re.split in Hloop. by rewrite nows_split_from in Hloop.
Qed.

Lemma punctuation_loop_keeps segs : ∀ result result',
  punctuation_loop min_len segs result = Ok result' →
  keeps (min_len ≤ 1)%Z (content_of result') (content_of result ++ content_of segs).
Proof.
  induction segs as [|seg segs IH]; intros result result'; simpl.
  { intros [= <-]. apply keeps_eq. unfold content_of at 3. simpl. by rewrite app_nil_r. }
  destruct (punctuation_step min_len result seg) as [r|] eqn:E; [|done]. simpl.
  intros H. eapply keeps_trans; [by apply IH|].
  rewrite content_of_cons, app_assoc.
  apply keeps_app; [|by apply keeps_eq]. by apply punctuation_step_keeps.
Qed.

End ContentFacts.

Lemma parse_stages self txt :
  parse self txt
  = if truthy (strip txt)
    then segs ← split_stages self txt; Ok (filter (long_enough self) segs)
    else Ok [].
Proof. unfold parse, split_stages. by destruct (truthy (strip txt)). Qed.

Lemma split_stages_total self txt : ∃ segs, split_stages self txt = Ok segs.
Proof.
  unfold split_stages. destruct (split_by_punctuation self); [|by eexists].
  apply punctuation_loop_total.
Qed.

Lemma parse_total self txt : ∃ segs, parse self txt = Ok segs.
Proof.
  rewrite parse_stages. destruct (truthy (strip txt)); [|by eexists].
  destruct (split_stages_total self txt) as [r ->]. by eexists.
Qed.

(** A property of single segments that the splitting stages establish. *)
Lemma split_stages_Forall (Q : TextSegment → Prop) self txt segs :
  Forall Q (pre_split self txt) →
  (∀ s t, s ∈ pre_split self txt → is_header s = false → t ≠ [] → strip t = t →
          Q (fresh (header s) t)) →
  (∀ prev rem, Q prev → is_header prev = false → rem ≠ [] → strip rem = rem →
               Q (merged prev rem)) →
  split_stages self txt = Ok segs → Forall Q segs.
Proof.
  intros Hpre Hfresh Hmerge. unfold split_stages.
  destruct (split_by_punctuation self); [|by intros [= <-]].
  unfold _split_by_punctuation. intros E.
  eapply (punctuation_loop_Forall _ Q); [| exact Hfresh | exact Hmerge | | exact E].
  - intros s Hs _. revert s Hs. by apply Forall_forall.
  - constructor.
Qed.

Lemma parse_Forall (Q : TextSegment → Prop) self txt segs :
  (strip txt ≠ [] → Forall Q (pre_split self txt)) →
  (∀ s t, s ∈ pre_split self txt → is_header s = false → t ≠ [] → strip t = t →
          Q (fresh (header s) t)) →
  (∀ prev rem, Q prev → is_header prev = false → rem ≠ [] → strip rem = rem →
               Q (merged prev rem)) →
  parse self txt = Ok segs → Forall Q segs.
Proof.
  intros Hpre Hfresh Hmerge. rewrite parse_stages.
  destruct (truthy (strip txt)) eqn:Ht; [|intros [= <-]; constructor].
  apply truthy_true in Ht.
  destruct (split_stages self txt) as [r|] eqn:E; simpl; [|done].
  intros [= <-]. apply Forall_forall. intros s Hs.
  apply list_elem_of_filter in Hs as [_ Hs]. revert s Hs. apply Forall_forall.
  eapply split_stages_Forall; [by apply Hpre | exact Hfresh | exact Hmerge | exact E].
Qed.

(** Every segment of the splitting stages has a visible character. *)
Lemma pre_split_nonblank self txt :
  strip txt ≠ [] → Forall (λ s, strip (text s) ≠ []) (pre_split self txt).
Proof.
  intros Ht. unfold pre_split. destruct (split_by_headers self).
  - apply split_by_headers_Forall.
    + intros t hdr Hne Hs. simpl. by rewrite Hs.
    + intros line g Hline Hm. simpl.
      eapply header_text_nonempty; [|exact Hm].
      pose proof (split_no_sep NL txt) as Hno.
      by apply (proj1 (Forall_forall _ _) Hno).
  - constructor; [|constructor]. simpl. by rewrite strip_idem.
Qed.

Lemma fresh_nonblank hdr t : t ≠ [] → strip t = t → strip (text (fresh hdr t)) ≠ [].
Proof. intros Hne Hs. simpl. by rewrite Hs. Qed.

Lemma merged_nonblank prev rem :
  rem ≠ [] → strip rem = rem → strip (text (merged prev rem)) ≠ [].
Proof.
  intros Hne Hs. simpl. apply strip_nonempty. rewrite !Exists_app. right. right.
  apply strip_nonempty. by rewrite Hs.
Qed.

(** What the splitting stages keep of the text. *)
Lemma split_stages_keeps self txt segs :
  split_stages self txt = Ok segs →
  keeps ((min_segment_length self ≤ 1)%Z
         ∧ (split_by_headers self = false ∨ no_header_lines txt))
        (content_of segs) (nows txt).
Proof.
  unfold split_stages. destruct (split_by_punctuation self).
  - unfold _split_by_punctuation. intros H.
    apply punctuation_loop_keeps in H. simpl in H.
    eapply keeps_trans.
    + eapply keeps_impl; [|exact H]. by intros [? _].
    + eapply keeps_impl; [|apply pre_split_keeps]. by intros [_ ?].
  - intros [= <-]. eapply keeps_impl; [|apply pre_split_keeps]. by intros [_ ?].
Qed.

Lemma split_stages_nonblank self txt segs :
  strip txt ≠ [] → split_stages self txt = Ok segs →
  Forall (λ s, strip (text s) ≠ []) segs.
Proof.
  intros Ht. apply split_stages_Forall.
  - by apply pre_split_nonblank.
  - intros s t _ _. apply fresh_nonblank.
  - intros prev rem _ _. apply merged_nonblank.
Qed.

(** A candidate sentence long enough is in what [parse] returns, as a segment
    whose text starts with it. *)
Lemma parse_keeps_candidate self txt segment pre t p post :
  split_by_punctuation self = true →
  segment ∈ pre_split self txt → is_header segment = false →
  Re.split (text segment) = pre ++ t :: p :: post → Nat.even (length pre) = true →
  (min_segment_length self ≤ len (strip (t ++ p)))%Z →
  ∃ segs, parse self txt = Ok segs
          ∧ Exists (carries (strip (t ++ p)) (header segment)) segs.
Proof.
  intros Hpunct Hin Hh Hs Hev Hlen.
  destruct (sentence_loop_at_candidate (min_segment_length self) None
              _ _ _ _ _ [] Hs Hev) as [Htruthy _].
  apply truthy_true in Htruthy.
  assert (strip txt ≠ []) as Htxt.
  { rewrite strip_nows_nil. intros Hnil.
    destruct (pre_split_keeps self txt) as [Hsub _]. rewrite Hnil in Hsub.
    apply sublist_nil_r in Hsub.
    apply list_elem_of_split in Hin as (l1 & l2 & Hl). rewrite Hl in Hsub.
    rewrite content_of_app, content_of_cons in Hsub.
    apply app_eq_nil in Hsub as [_ Hsub]. apply app_eq_nil in Hsub as [Hsub _].
    rewrite <- (nows_split_from (length (text segment))) in Hsub.
    fold (Re.split (text segment)) in Hsub. rewrite Hs in Hsub.
    rewrite concat_app in Hsub. simpl in Hsub. rewrite !nows_app in Hsub.
    apply app_eq_nil in Hsub as [_ Hsub]. apply app_eq_nil in Hsub as [Ht Hsub].
    apply app_eq_nil in Hsub as [Hp _].
    apply Htruthy, strip_nows_nil. by rewrite nows_app, Ht, Hp. }
  rewrite parse_stages. apply truthy_true in Htxt. rewrite Htxt.
  unfold split_stages. rewrite Hpunct.
  destruct (punctuation_loop_total (min_segment_length self) (pre_split self txt) [])
    as [out Hout].
  unfold _split_by_punctuation at 1. rewrite Hout. simpl.
  eexists. split; [done|].
  pose proof (split_by_punctuation_emits _ _ _ _ _ _ _ _ Hin Hh Hs Hev Hlen Hout)
    as Hex.
  apply Exists_exists in Hex as (s' & Hs' & Hc).
  apply Exists_exists. exists s'. split; [|done].
  apply list_elem_of_filter. split; [|done].
  destruct Hc as ([x Hx] & _ & _). unfold long_enough. rewrite Hx.
  destruct (strip_spec (t ++ p)) as (_ & _ & _ & _ & _ & Hstripped).
  pose proof (strip_prefix _ x Hstripped Htruthy) as Hpre.
  apply prefix_length in Hpre. unfold len in *. lia.
Qed.

(** ** The shape of the segments *)

Section ShapeFacts.

Lemma stripped_iff t : strip t = t ↔ stripped t.
Proof.
  split; [|apply strip_fix].
  intros <-. by destruct (strip_spec t) as (_ & _ & _ & _ & _ & H).
Qed.

(** Two trimmed, non-empty texts joined by anything are a trimmed text. *)
Lemma strip_joined a m b :
  a ≠ [] → b ≠ [] → strip a = a → strip b = b →
  strip (a ++ m ++ b) = a ++ m ++ b.
Proof.
  intros Ha Hb Hsa Hsb. apply strip_fix.
  apply stripped_iff in Hsa as [Hha _]. apply stripped_iff in Hsb as [_ Hlb].
  split.
  - intros c. destruct a as [|d a]; [done|]. apply Hha.
  - intros c. rewrite app_assoc, last_app.
    destruct (last b) as [d|] eqn:E; [apply Hlb | by apply last_None in E].
Qed.

Lemma pre_split_trimmed self txt :
  strip txt ≠ [] → Forall trimmed (pre_split self txt).
Proof.
  intros Ht. unfold pre_split. destruct (split_by_headers self).
  - apply split_by_headers_Forall.
    + by intros t hdr Hne Hs.
    + intros line g Hline Hm. split; simpl; [|apply strip_idem].
      rewrite <- (strip_idem g). eapply header_text_nonempty; [|exact Hm].
      pose proof (split_no_sep NL txt) as Hno.
      by apply (proj1 (Forall_forall _ _) Hno).
  - constructor; [|constructor]. split; simpl; [done | apply strip_idem].
Qed.

Lemma split_stages_trimmed self txt segs :
  strip txt ≠ [] → split_stages self txt = Ok segs → Forall trimmed segs.
Proof.
  intros Ht. apply split_stages_Forall.
  - by apply pre_split_trimmed.
  - by intros s t _ _ Hne Hs.
  - intros prev rem [Hp Hsp] _ Hne Hs. split; simpl.
    + by destruct (text prev).
    + by apply (strip_joined (text prev) [SPACE] rem).
Qed.

Lemma pre_split_header_text self txt :
  Forall (λ s, is_header s = true → header s = Some (text s)) (pre_split self txt).
Proof.
  unfold pre_split. destruct (split_by_headers self).
  - apply split_by_headers_Forall; [done | done].
  - by constructor.
Qed.

End ShapeFacts.

(** ** Headers and sections *)

Section SectionFacts.

Lemma tracks_app l1 : ∀ h l2,
  tracks h (l1 ++ l2) ↔ tracks h l1 ∧ tracks (header_after h l1) l2.
Proof.
  induction l1 as [|s l1 IH]; intros h l2; simpl; [tauto|].
  destruct (is_header s); rewrite IH; tauto.
Qed.

Lemma header_after_app l1 : ∀ h l2,
  header_after h (l1 ++ l2) = header_after (header_after h l1) l2.
Proof. induction l1 as [|s l1 IH]; intros h l2; simpl; [done | apply IH]. Qed.

(** Content segments under one header. *)
Lemma tracks_content hdr e :
  Forall (λ s, header s = hdr ∧ is_header s = false) e →
  tracks hdr e ∧ ∀ h, header_after h e = h.
Proof.
  induction 1 as [|s e [Hh Hi] _ [IH1 IH2]]; simpl; [done|].
  rewrite Hi. by split_and!.
Qed.

Lemma save_current_tracks st :
  tracks None (segments st) →
  header_after None (segments st) = current_header st →
  tracks None (save_current st)
  ∧ header_after None (save_current st) = current_header st.
Proof.
  intros Ht Hh. unfold save_current.
  destruct (truthy (current_text st)); [|done].
  destruct (truthy (strip _)); [|done].
  rewrite tracks_app, header_after_app, Hh. simpl. by split_and!.
Qed.

Lemma header_loop_tracks lines : ∀ st,
  tracks None (segments st) →
  header_after None (segments st) = current_header st →
  tracks None (segments (foldl header_step st lines))
  ∧ header_after None (segments (foldl header_step st lines))
    = current_header (foldl header_step st lines).
Proof.
  induction lines as [|line lines IH]; intros st Ht Hh; simpl; [done|].
  unfold header_step at 2 4 6.
  destruct (Re.header_match (strip line)) as [g|].
  - destruct (save_current_tracks st Ht Hh) as [Ht' Hh'].
    apply IH; simpl.
    + rewrite tracks_app. simpl. by split_and!.
    + by rewrite header_after_app.
  - destruct (truthy (strip line)); by apply IH.
Qed.

Lemma split_by_headers_tracks txt : tracks None (_split_by_headers txt).
Proof.
  unfold _split_by_headers.
  destruct (header_loop_tracks (Py.split NL txt) (mkH [] None [])) as [Ht Hh];
    [done | done |].
  by apply save_current_tracks.
Qed.

Section Punctuation.

Variable min_len : Z.

Lemma remainder_outcome_tracks h hdr cur result result' :
  remainder_outcome min_len hdr cur result result' →
  tracks h result → header_after h result = hdr →
  tracks h result' ∧ header_after h result' = hdr.
Proof.
  intros [He|He|init prev He Hl -> Hp] Ht Hh; [done| |].
  - rewrite tracks_app, header_after_app, Hh. simpl. by split_and!.
  - rewrite tracks_app in Ht. rewrite header_after_app in Hh.
    rewrite tracks_app, header_after_app. simpl in *.
    rewrite Hp in *. by destruct Ht as (? & ? & _).
Qed.

Lemma punctuation_step_tracks h hc result segment result' :
  tracks h result → header_after h result = hc → tracks hc [segment] →
  punctuation_step min_len result segment = Ok result' →
  tracks h result' ∧ header_after h result' = header_after hc [segment].
Proof.
  intros Ht Hh Hseg Hstep.
  destruct (punctuation_step_outcome min_len result segment) as (r & Hr & Ho).
  rewrite Hr in Hstep. injection Hstep as ->. simpl in Hseg |- *.
  destruct (is_header segment) eqn:Hi.
  { subst. rewrite tracks_app, header_after_app. simpl. rewrite Hi.
    destruct Hseg as [? _]. by split_and!. }
  destruct Ho as (cur & e & Hloop & Hout). destruct Hseg as [Hhdr _].
  apply sentence_loop_kept in Hloop.
  assert (Forall (λ s, header s = hc ∧ is_header s = false) e) as He.
  { eapply Forall_impl; [exact Hloop|]. intros s (? & ? & _). split; congruence. }
  apply tracks_content in He as [He1 He2].
  eapply remainder_outcome_tracks in Hout as [Ht' Hh'].
  - split; [exact Ht'|]. rewrite Hh'. done.
  - rewrite tracks_app. split; [done|]. by rewrite Hh.
  - by rewrite header_after_app, He2, Hh.
Qed.

Lemma punctuation_loop_tracks h segs : ∀ hc result result',
  tracks h result → header_after h result = hc → tracks hc segs →
  punctuation_loop min_len segs result = Ok result' →
  tracks h result'.
Proof.
  induction segs as [|seg segs IH]; intros hc result result' Ht Hh Hsegs; simpl.
  { by intros [= <-]. }
  destruct (punctuation_step min_len result seg) as [r|] eqn:E; [|done]. simpl.
  change (seg :: segs) with ([seg] ++ segs) in Hsegs.
  apply tracks_app in Hsegs as [Hseg Hrest].
  destruct (punctuation_step_tracks h hc _ _ _ Ht Hh Hseg E) as [Ht' Hh'].
  by apply (IH (header_after hc [seg])).
Qed.

Lemma headers_of_app l1 l2 : headers_of (l1 ++ l2) = headers_of l1 ++ headers_of l2.
Proof. apply filter_app. Qed.

Lemma headers_of_content e :
  Forall (λ s, is_header s = false) e → headers_of e = [].
Proof.
  induction 1 as [|s e Hs _ IH]; [done|].
  unfold headers_of. rewrite filter_cons_False by congruence. done.
Qed.

Lemma remainder_outcome_headers hdr cur result result' :
  remainder_outcome min_len hdr cur result result' →
  headers_of result' = headers_of result.
Proof.
  intros [He|He|init prev He Hl -> Hp].
  - done.
  - rewrite headers_of_app, (headers_of_content [_]), app_nil_r; [done|].
    by repeat constructor.
  - rewrite !headers_of_app, !(headers_of_content [_]); [done| |];
      by repeat constructor.
Qed.

Lemma punctuation_step_headers result segment result' :
  punctuation_step min_len result segment = Ok result' →
  headers_of result' = headers_of result ++ headers_of [segment].
Proof.
  intros Hstep.
  destruct (punctuation_step_outcome min_len result segment) as (r & Hr & Ho).
  rewrite Hr in Hstep. injection Hstep as ->.
  destruct (is_header segment) eqn:Hi.
  { subst. apply headers_of_app. }
  destruct Ho as (cur & e & Hloop & Hout).
  apply remainder_outcome_headers in Hout. rewrite Hout, headers_of_app.
  rewrite (headers_of_content e), (headers_of_content [segment]).
  - done.
  - by repeat constructor.
  - apply sentence_loop_kept in Hloop. eapply Forall_impl; [exact Hloop|].
    by intros s (_ & ? & _).
Qed.

Lemma punctuation_loop_headers segs : ∀ result result',
  punctuation_loop min_len segs result = Ok result' →
  headers_of result' = headers_of result ++ headers_of segs.
Proof.
  induction segs as [|seg segs IH]; intros result result'; simpl.
  { intros [= <-]. by rewrite app_nil_r. }
  destruct (punctuation_step min_len result seg) as [r|] eqn:E; [|done]. simpl.
  intros H. rewrite (IH _ _ H), (punctuation_step_headers _ _ _ E).
  rewrite <- app_assoc. f_equal. symmetry. apply (headers_of_app [seg] segs).
Qed.

End Punctuation.

(** Content segments of [_split_by_headers] are separated by header
    segments. *)
Lemma separated_app l1 : ∀ b l2,
  separated b (l1 ++ l2) ↔ separated b l1 ∧ separated (open_after b l1) l2.
Proof.
  induction l1 as [|s l1 IH]; intros b l2; simpl; [tauto|].
  destruct (is_header s); rewrite IH; tauto.
Qed.

Lemma open_after_app l1 : ∀ b l2,
  open_after b (l1 ++ l2) = open_after (open_after b l1) l2.
Proof. induction l1 as [|s l1 IH]; intros b l2; simpl; [done | apply IH]. Qed.

Lemma open_after_last b l :
  open_after b l = true →
  l = [] ∨ ∃ l' s, l = l' ++ [s] ∧ is_header s = true.
Proof.
  destruct l as [|x l _] using rev_ind; [by left|].
  rewrite open_after_app. simpl. intros H. right. by exists l, x.
Qed.

Lemma header_loop_separated lines : ∀ st,
  separated true (segments st) → open_after true (segments st) = true →
  separated true (segments (foldl header_step st lines))
  ∧ open_after true (segments (foldl header_step st lines)) = true.
Proof.
  induction lines as [|line lines IH]; intros st Hs Ho; simpl; [done|].
  unfold header_step at 2 4.
  destruct (Re.header_match (strip line)) as [g|].
  - apply IH; simpl.
    + rewrite separated_app. simpl. split; [|done].
      unfold save_current. destruct (truthy (current_text st)); [|done].
      destruct (truthy (strip _)); [|done].
      rewrite separated_app, Ho. simpl. by split_and!.
    + by rewrite open_after_app.
  - destruct (truthy (strip line)); by apply IH.
Qed.

Lemma split_by_headers_separated txt : separated true (_split_by_headers txt).
Proof.
  unfold _split_by_headers.
  destruct (header_loop_separated (Py.split NL txt) (mkH [] None [])) as [Hs Ho];
    [done | done |].
  unfold save_current. destruct (truthy (current_text _)); [|done].
  destruct (truthy (strip _)); [|done].
  rewrite separated_app, Ho. simpl. by split_and!.
Qed.

(** A non-blank text gives at least one segment. *)
Lemma header_step_some st line :
  segments st ≠ [] ∨ nows (concat (current_text st)) ≠ [] ∨ nows line ≠ [] →
  segments (header_step st line) ≠ []
  ∨ nows (concat (current_text (header_step st line))) ≠ [].
Proof.
  intros H. unfold header_step.
  destruct (Re.header_match (strip line)) as [g|].
  { left. simpl. by destruct (save_current st). }
  destruct (truthy (strip line)) eqn:Ht; simpl.
  - destruct H as [H|[H|H]]; [by left| |]; right;
      rewrite concat_app, nows_app; simpl; rewrite app_nil_r;
      intros Hnil; apply app_eq_nil in Hnil as [? ?]; done.
  - apply truthy_false, strip_nows_nil in Ht.
    destruct H as [H|[H|H]]; [by left | by right | done].
Qed.

Lemma header_loop_some lines : ∀ st,
  segments st ≠ [] ∨ nows (concat (current_text st)) ≠ []
  ∨ nows (concat lines) ≠ [] →
  segments (foldl header_step st lines) ≠ []
  ∨ nows (concat (current_text (foldl header_step st lines))) ≠ [].
Proof.
  induction lines as [|line lines IH]; intros st H; simpl.
  { destruct H as [H|[H|H]]; [by left | by right | done]. }
  apply IH. simpl in H. rewrite nows_app in H.
  destruct (decide (nows (concat lines) = [])) as [Hl|Hl]; [|auto].
  rewrite Hl, app_nil_r in H.
  destruct (header_step_some st line H); auto.
Qed.

Lemma split_by_headers_some txt : strip txt ≠ [] → _split_by_headers txt ≠ [].
Proof.
  intros Ht. unfold _split_by_headers.
  destruct (header_loop_some (Py.split NL txt) (mkH [] None [])) as [H|H].
  { right. right. rewrite nows_concat_split. by rewrite <- strip_nows_nil. }
  - unfold save_current. destruct (truthy (current_text _)); [|done].
    destruct (truthy (strip _)); [|done]. by destruct (segments _).
  - unfold save_current.
    destruct (truthy (current_text _)) eqn:Hc.
    + rewrite <- nows_join, <- strip_nows_nil in H.
      apply truthy_true in H. rewrite H. by destruct (segments _).
    + apply truthy_false in Hc. by rewrite Hc in H.
Qed.

End SectionFacts.

Lemma pre_split_some self txt : strip txt ≠ [] → pre_split self txt ≠ [].
Proof.
  intros Ht. unfold pre_split. destruct (split_by_headers self); [|done].
  by apply split_by_headers_some.
Qed.

(** With a minimum length of at most 1, the splitting stages return something
    for a non-blank text. *)
Lemma split_stages_some self txt segs :
  (min_segment_length self ≤ 1)%Z → strip txt ≠ [] →
  split_stages self txt = Ok segs → segs ≠ [].
Proof.
  intros Hmin Ht Hr ->.
  pose proof (pre_split_some self txt Ht) as Hsome.
  pose proof (pre_split_nonblank self txt Ht) as Hnb.
  assert (content_of (pre_split self txt) = []) as Hc.
  { unfold split_stages in Hr. destruct (split_by_punctuation self).
    - apply punctuation_loop_keeps in Hr as [_ He]. symmetry. by apply He.
    - injection Hr as Hr. by rewrite Hr. }
  destruct (pre_split self txt) as [|s l]; [done|].
  apply Forall_cons in Hnb as [Hs _]. rewrite content_of_cons in Hc.
  apply app_eq_nil in Hc as [Hc _]. by apply strip_nows_nil in Hc.
Qed.

(** ** [extract_headers] *)

Section ExtractFacts.

Lemma dot_plus_eol_rest_spec s g rest :
  dot_plus_eol_rest s = Some (g, rest) →
  s = g ++ rest ∧ g ≠ [] ∧ Re.dot_plus_eol s = Some g
  ∧ Forall (λ c, c ≠ NL) g.
Proof.
  unfold dot_plus_eol_rest, Re.dot_plus_eol.
  pose proof (take_while_Forall (λ c, negb (c =? NL)) s) as Hall.
  pose proof (take_drop_while (λ c, negb (c =? NL)) s) as Hs.
  destruct (take_while _ s) as [|c g'] eqn:E; [done|].
  intros [= <- <-]. split_and!; try done.
  eapply Forall_impl; [exact Hall|]. intros d Hd ->. done.
Qed.

Lemma dot_plus_eol_rest_None s :
  dot_plus_eol_rest s = None → Re.dot_plus_eol s = None.
Proof.
  unfold dot_plus_eol_rest, Re.dot_plus_eol. by destruct (take_while _ s).
Qed.

(** The two versions of the pattern find the same group 2. *)
Lemma spaces_then_text_rest_fst s :
  fst <$> spaces_then_text_rest s = Re.spaces_then_text s.
Proof.
  induction s as [|c s IH]; simpl; [done|].
  destruct (isspace c); [|done].
  destruct (spaces_then_text_rest s) as [[g r]|];
    destruct (Re.spaces_then_text s); simplify_eq/=; try done.
  destruct (dot_plus_eol_rest s) as [[g r]|] eqn:E; simpl.
  - by apply dot_plus_eol_rest_spec in E as (_ & _ & -> & _).
  - by apply dot_plus_eol_rest_None in E as ->.
Qed.

Lemma hashes_then_rest_fst n : ∀ s,
  fst <$> hashes_then_rest n s = Re.hashes_then n s.
Proof.
  induction n as [|n IH]; intros [|c s]; simpl; try done.
  destruct (Re.is_hash c); [|done].
  specialize (IH s).
  destruct (hashes_then_rest n s) as [[g r]|];
    destruct (Re.hashes_then n s); simplify_eq/=; try done.
  apply spaces_then_text_rest_fst.
Qed.

Lemma spaces_then_text_rest_spec s g rest :
  spaces_then_text_rest s = Some (g, rest) →
  ∃ p, s = p ++ g ++ rest ∧ p ≠ [] ∧ g ≠ [] ∧ Forall (λ c, c ≠ NL) g.
Proof.
  revert g rest. induction s as [|c s IH]; intros g rest; simpl; [done|].
  destruct (isspace c); [|done].
  destruct (spaces_then_text_rest s) as [[g' r']|].
  - intros [= <- <-]. destruct (IH _ _ eq_refl) as (p & -> & _ & Hg & Hnl).
    by exists (c :: p).
  - intros H. apply dot_plus_eol_rest_spec in H as (-> & Hg & _ & Hnl).
    by exists [c].
Qed.

Lemma hashes_then_rest_spec n : ∀ s g rest,
  hashes_then_rest n s = Some (g, rest) →
  ∃ p, s = p ++ g ++ rest ∧ p ≠ [] ∧ g ≠ [] ∧ Forall (λ c, c ≠ NL) g
       ∧ head s = Some Re.HASH.
Proof.
  induction n as [|n IH]; intros [|c s] g rest; simpl; try done.
  unfold Re.is_hash. destruct (N.eqb_spec c Re.HASH) as [->|]; [|done].
  destruct (hashes_then_rest n s) as [[g' r']|] eqn:E.
  - intros [= <- <-]. destruct (IH _ _ _ E) as (p & -> & _ & Hg & Hnl & _).
    by exists (Re.HASH :: p).
  - intros H. apply spaces_then_text_rest_spec in H as (p & -> & _ & Hg & Hnl).
    by exists (Re.HASH :: p).
Qed.

(** More rounds than [finditer] takes change nothing. *)
Lemma finditer_fuel_enough fuel1 : ∀ fuel2 bol s,
  (length s < fuel1)%nat → (length s < fuel2)%nat →
  finditer_from fuel1 bol s = finditer_from fuel2 bol s.
Proof.
  induction fuel1 as [|fuel1 IH]; intros fuel2 bol s H1 H2; [lia|].
  destruct fuel2 as [|fuel2]; [lia|]. cbn [finditer_from].
  destruct (if bol then hashes_then_rest 6 s else None) as [[g rest]|] eqn:E.
  - destruct bol; [|done].
    apply hashes_then_rest_spec in E as (p & -> & Hp & Hg & _).
    f_equal. apply IH; rewrite !length_app in *; destruct p; simpl in *; try done; lia.
  - destruct s as [|c s]; [done|]. apply IH; simpl in *; lia.
Qed.

Lemma finditer_from_spec fuel : ∀ bol s,
  Forall (λ g, g ≠ [] ∧ Forall (λ c, c ≠ NL) g) (finditer_from fuel bol s)
  ∧ nows (concat (strip <$> finditer_from fuel bol s)) `sublist_of` nows s
  ∧ (Re.HASH ∉ s → finditer_from fuel bol s = []).
Proof.
  induction fuel as [|fuel IH]; intros bol s; cbn [finditer_from].
  { split_and!; [constructor | apply sublist_nil_l | done]. }
  destruct (if bol then hashes_then_rest 6 s else None) as [[g rest]|] eqn:E.
  - destruct bol; [|done].
    apply hashes_then_rest_spec in E as (p & -> & Hp & Hg & Hnl & Hhead).
    destruct (IH false rest) as (IH1 & IH2 & _). split_and!.
    + by constructor.
    + simpl. rewrite !nows_app, nows_strip. apply sublist_inserts_l.
      by apply sublist_app.
    + intros Hno. exfalso. apply Hno.
      destruct (p ++ g ++ rest) as [|c r]; simplify_eq/=. by left.
  - destruct s as [|c s].
    { split_and!; [constructor | apply sublist_nil_l | done]. }
    destruct (IH (c =? NL) s) as (IH1 & IH2 & IH3). split_and!; [done| |].
    + rewrite (nows_cons c s). by apply sublist_inserts_l.
    + intros Hno. apply IH3. intros Hin. apply Hno. by right.
Qed.

End ExtractFacts.

(** ** The logger *)

Section LoggerFacts.

Context `{Outside}.

Lemma digits_fuel_enough fuel : ∀ n acc,
  (0 < fuel)%nat → n < 2 ^ N.of_nat fuel →
  digits_from fuel n acc = digits_from (S fuel) n acc.
Proof.
  induction fuel as [|fuel IH]; intros n acc Hpos Hn; [lia|].
  cbn [digits_from]. destruct (N.eqb_spec (n / 10) 0) as [|Hne]; [done|].
  destruct fuel as [|fuel].
  { exfalso. apply Hne. apply N.div_small. simpl in Hn. lia. }
  apply IH; [lia|].
  rewrite Nat2N.inj_succ, N.pow_succ_r' in Hn.
  apply N.Div0.div_lt_upper_bound. lia.
Qed.

(** Two digits below 100. *)
Lemma format_d2 z :
  (0 ≤ z < 100)%Z →
  format_d 2 z = [48 + Z.to_N (z / 10); 48 + Z.to_N (z mod 10)].
Proof.
  intros Hz.
  assert (Forall (λ k, format_d 2 (Z.of_nat k)
                       = [48 + Z.to_N (Z.of_nat k / 10);
                          48 + Z.to_N (Z.of_nat k mod 10)]) (seq 0 100))
    as Hall.
  { refine (proj1 (bool_decide_spec _) _). by vm_compute. }
  rewrite Forall_forall in Hall.
  rewrite <- (Z2Nat.id z) by lia. apply Hall.
  apply elem_of_seq. lia.
Qed.

Lemma hms_total t :
  let '(h, m, s) := hms t in
  (t = h * 3600 + m * 60 + s ∧ 0 ≤ m < 60 ∧ 0 ≤ s < 60)%Z.
Proof. unfold hms. Z.div_mod_to_equations. lia. Qed.

Lemma format_hms_digits t :
  (0 ≤ t < 360000)%Z →
  let '(h, m, s) := hms t in
  format_hms t
  = [91; 48 + Z.to_N (h / 10); 48 + Z.to_N (h mod 10); 58;
     48 + Z.to_N (m / 10); 48 + Z.to_N (m mod 10); 58;
     48 + Z.to_N (s / 10); 48 + Z.to_N (s mod 10); 93].
Proof.
  intros Ht. unfold format_hms, hms.
  rewrite !format_d2 by (Z.div_mod_to_equations; lia). done.
Qed.

(** Two digits determine a number below 100. *)
Lemma two_digits_inj (a b : Z) :
  (0 ≤ a < 100)%Z → (0 ≤ b < 100)%Z →
  48 + Z.to_N (a / 10) = 48 + Z.to_N (b / 10) →
  48 + Z.to_N (a mod 10) = 48 + Z.to_N (b mod 10) →
  a = b.
Proof.
  intros Ha Hb Hq Hr.
  apply N.add_cancel_l in Hq. apply N.add_cancel_l in Hr.
  apply Z2N.inj in Hq; [|apply Z.div_pos; lia|apply Z.div_pos; lia].
  apply Z2N.inj in Hr; [|apply Z.mod_pos_bound; lia|apply Z.mod_pos_bound; lia].
  rewrite (Z.div_mod a 10), (Z.div_mod b 10) by lia. by rewrite Hq, Hr.
Qed.

Lemma hms_bounds t :
  (0 ≤ t < 360000)%Z →
  let '(h, m, s) := hms t in (0 ≤ h < 100 ∧ 0 ≤ m < 100 ∧ 0 ≤ s < 100)%Z.
Proof.
  intros Ht. unfold hms. split_and!.
  - apply Z.div_pos; lia.
  - apply Z.div_lt_upper_bound; lia.
  - apply Z.div_pos; [apply Z.mod_pos_bound|]; lia.
  - apply Z.div_lt_upper_bound; [lia|].
    pose proof (Z.mod_pos_bound t 3600). lia.
  - apply Z.mod_pos_bound; lia.
  - pose proof (Z.mod_pos_bound t 60). lia.
Qed.

Lemma format_hms_inj t1 t2 :
  (0 ≤ t1 < 360000)%Z → (0 ≤ t2 < 360000)%Z →
  format_hms t1 = format_hms t2 → t1 = t2.
Proof.
  intros H1 H2 Heq.
  pose proof (format_hms_digits t1 H1) as E1.
  pose proof (format_hms_digits t2 H2) as E2.
  pose proof (hms_bounds t1 H1) as B1. pose proof (hms_bounds t2 H2) as B2.
  pose proof (hms_total t1) as T1. pose proof (hms_total t2) as T2.
  unfold hms in E1, E2, B1, B2, T1, T2. rewrite E1, E2 in Heq.
  injection Heq as Ha Hb Hc Hd He Hf.
  destruct B1 as (Bh1 & Bm1 & Bs1), B2 as (Bh2 & Bm2 & Bs2).
  pose proof (two_digits_inj _ _ Bh1 Bh2 Ha Hb) as Eh.
  pose proof (two_digits_inj _ _ Bm1 Bm2 Hc Hd) as Em.
  pose proof (two_digits_inj _ _ Bs1 Bs2 He Hf) as Es.
  destruct T1 as [T1 _], T2 as [T2 _].
  rewrite T1, T2, Eh, Em, Es. done.
Qed.

(** The entries pile up: a call reads the clock once more and appends its
    entry. *)
Lemma do_call_started self call t0 :
  start_time self = Some t0 →
  do_call self call
  = mkLogger (log_file_path self)
             (entries self ++ [call_entry (clock (now_calls self)) call])
             (Some t0) (Some (clock (now_calls self))) (S (now_calls self)).
Proof.
  intros Hs. destruct call; cbn [do_call call_entry];
    unfold log_header, log_segment_start, log_segment_end, log_info,
      ensure_started; rewrite Hs; cbv beta iota;
    unfold append_entry; by rewrite Hs.
Qed.

Lemma run_calls_started calls : ∀ self t0,
  start_time self = Some t0 →
  entries (foldl do_call self calls)
  = entries self
    ++ imap (λ i call, call_entry (clock (now_calls self + i)) call) calls
  ∧ start_time (foldl do_call self calls) = Some t0
  ∧ now_calls (foldl do_call self calls) = (now_calls self + length calls)%nat.
Proof.
  induction calls as [|call calls IH]; intros self t0 Hs; simpl.
  { by rewrite app_nil_r, Nat.add_0_r. }
  rewrite (do_call_started self call t0 Hs).
  destruct (IH (mkLogger (log_file_path self)
                  (entries self ++ [call_entry (clock (now_calls self)) call])
                  (Some t0) (Some (clock (now_calls self))) (S (now_calls self)))
               t0 eq_refl) as (-> & -> & ->).
  simpl. split_and!; [|done|lia].
  rewrite <- app_assoc. simpl. rewrite Nat.add_0_r. do 2 f_equal.
  apply imap_ext. intros i c _. simpl. do 2 f_equal. lia.
Qed.

(** The loop of [write_log]: the lines of the entries, and the durations
    added up. *)
Lemma write_entry_eq self written total e :
  write_entry self (written, total) e
  = (written ++ entry_lines self e,
     match counted_duration e with
     | Some d => float_add total d
     | None => total
     end).
Proof.
  unfold write_entry, entry_lines.
  destruct (counted_duration e), (truthy_opt (segment_path e));
    by rewrite <- ?app_assoc, ?app_nil_r.
Qed.

Lemma write_entries_fold self es : ∀ written total,
  foldl (write_entry self) (written, total) es
  = (written ++ concat (entry_lines self <$> es),
     foldl float_add total (omap counted_duration es)).
Proof.
  induction es as [|e es IH]; intros written total.
  { simpl. by rewrite app_nil_r. }
  change (foldl (write_entry self) (written, total) (e :: es))
    with (foldl (write_entry self) (write_entry self (written, total) e) es).
  rewrite write_entry_eq, IH.
  change (entry_lines self <$> e :: es)
    with (entry_lines self e :: (entry_lines self <$> es)).
  cbn [concat omap list_omap]. rewrite <- app_assoc.
  by destruct (counted_duration e).
Qed.

Lemma do_call_fresh path call :
  do_call (new_logger path) call = do_call (start (new_logger path)) call.
Proof. by destruct call. Qed.

Lemma run_calls_fresh path calls :
  entries (foldl do_call (start (new_logger path)) calls)
  = imap (λ i call, call_entry (clock (S i)) call) calls
  ∧ start_time (foldl do_call (start (new_logger path)) calls) = Some (clock 0)
  ∧ now_calls (foldl do_call (start (new_logger path)) calls) = S (length calls).
Proof.
  destruct (run_calls_started calls (start (new_logger path)) (clock 0) eq_refl)
    as (He & Hs & Hn).
  split_and!; [|done|done]. rewrite He. simpl. done.
Qed.

End LoggerFacts.

(** ** The pipeline *)

Section PipelineFacts.

Context `{Engine}.

Lemma counted_call_entry now call :
  counted_duration (call_entry now call) = call_duration call.
Proof. by destruct call. Qed.

Lemma counted_call_entries calls : ∀ (f : nat → datetime),
  omap counted_duration (imap (λ i call, call_entry (f i) call) calls)
  = omap call_duration calls.
Proof.
  induction calls as [|call calls IH]; intros f; [done|].
  cbn [imap omap list_omap]. rewrite counted_call_entry.
  by rewrite <- (IH (f ∘ S)).
Qed.

(** The total of a log is the sum of the durations its calls gave. *)
Lemma total_of_calls path calls :
  get_total_duration (foldl do_call (start (new_logger path)) calls)
  = float_sum (omap call_duration calls).
Proof.
  unfold get_total_duration.
  destruct (run_calls_fresh path calls) as (-> & _).
  by rewrite counted_call_entries.
Qed.

Lemma process_segment_calls n dir speaker st i segment :
  logger_of (process_segment n dir speaker st i segment)
  = foldl do_call (logger_of st)
      (segment_calls dir speaker (header_seen st) i segment)
  ∧ header_seen (process_segment n dir speaker st i segment)
    = (if is_header segment then Some (text segment) else header_seen st)
  ∧ segment_files (process_segment n dir speaker st i segment)
    = segment_files st
      ++ (fst <$> option_list (segment_output dir speaker i segment)).
Proof.
  unfold process_segment, segment_calls, segment_output.
  destruct (is_header segment); [by rewrite app_nil_r|].
  destruct (try_synthesize speaker i segment _); simpl; by rewrite ?app_nil_r.
Qed.

Lemma process_segments_spec n dir speaker segs : ∀ i st,
  segment_files (process_segments n dir speaker i segs st)
  = segment_files st ++ (fst <$> outputs_from dir speaker i segs)
  ∧ logger_of (process_segments n dir speaker i segs st)
    = foldl do_call (logger_of st)
        (calls_from dir speaker (header_seen st) i segs).
Proof.
  induction segs as [|segment segs IH]; intros i st.
  { simpl. by rewrite app_nil_r. }
  cbn [process_segments outputs_from calls_from].
  destruct (IH (S i) (process_segment n dir speaker st i segment)) as [-> ->].
  destruct (process_segment_calls n dir speaker st i segment) as (-> & -> & ->).
  rewrite foldl_app. split; [|done].
  rewrite <- app_assoc. f_equal.
  by destruct (segment_output dir speaker i segment).
Qed.

(** The durations the calls of the loop add up are those of the outputs. *)
Lemma calls_from_durations dir speaker segs : ∀ hdr i,
  omap call_duration (calls_from dir speaker hdr i segs)
  = omap (λ o, if float_truthy o.2 then Some o.2 else None)
         (outputs_from dir speaker i segs).
Proof.
  induction segs as [|segment segs IH]; intros hdr i; [done|].
  cbn [calls_from outputs_from]. rewrite omap_app, IH.
  unfold segment_calls, segment_output.
  destruct (is_header segment); [done|].
  destruct (try_synthesize speaker i segment _) as [e|d]; [done|].
  cbn [omap list_omap call_duration]. simpl.
  by destruct (float_truthy d).
Qed.

Lemma outputs_from_length dir speaker segs : ∀ i,
  (length (outputs_from dir speaker i segs) + length (headers_of segs)
   ≤ length segs)%nat.
Proof.
  induction segs as [|segment segs IH]; intros i; [done|].
  cbn [outputs_from]. unfold segment_output, headers_of.
  specialize (IH (S i)). unfold headers_of in IH.
  destruct (is_header segment) eqn:Hh.
  - rewrite filter_cons_True by done. simpl. lia.
  - rewrite filter_cons_False by congruence.
    destruct (try_synthesize _ _ _ _); simpl; lia.
Qed.

End PipelineFacts.

Section PipelineRun.

Context `{Engine}.

Lemma process_text_log_calls parser segments_dir log_file speaker txt :
  ∃ segs st,
    parse parser txt = Ok segs
    ∧ process_text parser segments_dir log_file speaker txt = Ok st
    ∧ logger_of st
      = foldl do_call (start (new_logger log_file))
          (CallInfo (lit "Starting text parsing...")
           :: CallInfo (lit "Parsed text into "
                        ++ decimal (N.of_nat (length segs)) ++ lit " segments")
           :: calls_from segments_dir speaker None 0 segs)
    ∧ segment_files st = (fst <$> outputs_from segments_dir speaker 0 segs).
Proof.
  destruct (parse_total parser txt) as [segs Hp].
  unfold process_text. rewrite Hp. cbn [mbind res_bind].
  eexists _, _. split_and!; [done | done | |].
  - by destruct (process_segments_spec (length segs) segments_dir speaker segs 0
                   (mkProgress [] (log_info (log_info (start (new_logger log_file))
                      (lit "Starting text parsing..."))
                      (lit "Parsed text into " ++ decimal (N.of_nat (length segs))
                       ++ lit " segments")) None [] [])) as [_ ->].
  - by destruct (process_segments_spec (length segs) segments_dir speaker segs 0
                   (mkProgress [] (log_info (log_info (start (new_logger log_file))
                      (lit "Starting text parsing..."))
                      (lit "Parsed text into " ++ decimal (N.of_nat (length segs))
                       ++ lit " segments")) None [] [])) as [-> _].
Qed.

End PipelineRun.

(** ** The combiner *)

Section CombinerFacts.

Lemma list_ascii_append a b :
  list_ascii_of_string (String.append a b)
  = list_ascii_of_string a ++ list_ascii_of_string b.
Proof. induction a as [|c a IH]; simpl; [done | by rewrite IH]. Qed.

Lemma list_ascii_inj a b :
  list_ascii_of_string a = list_ascii_of_string b → a = b.
Proof.
  intros Heq. rewrite <- (string_of_list_ascii_of_string a),
    <- (string_of_list_ascii_of_string b). by rewrite Heq.
Qed.

Lemma escape_quotes_inj a : ∀ b, escape_quotes a = escape_quotes b → a = b.
Proof.
  induction a as [|c a IH]; intros [|d b]; simpl.
  - done.
  - by destruct (Ascii.eqb d "'").
  - by destruct (Ascii.eqb c "'").
  - destruct (Ascii.eqb_spec c "'") as [->|Hc], (Ascii.eqb_spec d "'") as [->|Hd];
      simpl; intros [= Heq]; subst; try done; f_equal; by apply IH.
Qed.

Lemma list_line_inj a b : list_line a = list_line b → a = b.
Proof.
  unfold list_line. intros Heq. apply (f_equal list_ascii_of_string) in Heq.
  rewrite !list_ascii_append in Heq.
  apply app_inv_head, app_inv_tail in Heq. by apply list_ascii_inj.
Qed.

(** The files listed: those that exist, in the order given. *)
Lemma omap_exists (path_exists : string → bool) (f : string → string)
    (files : list string) :
  omap (λ p, if path_exists p then Some (f p) else None) files
  = f <$> filter (λ p, path_exists p = true) files.
Proof.
  induction files as [|p files IH]; [done|].
  cbn [omap list_omap]. destruct (path_exists p) eqn:E.
  - rewrite filter_cons_True by done. rewrite fmap_cons. by rewrite <- IH.
  - by rewrite filter_cons_False by congruence.
Qed.

(** When nothing raises, the loop writes the lines of the files that exist,
    in the order given. *)
Lemma write_lines_ok (path_exists : string → bool)
    (abspath : string → res string) (write : nat → string → res unit)
    (abs : string → string) (files : list string) : ∀ written,
  (∀ p, p ∈ files → path_exists p = true → abspath p = Ok (abs p)) →
  (∀ n line, write n line = Ok ()) →
  write_lines path_exists abspath write files written
  = (written ++ ((λ p, list_line (escape_quotes (abs p)))
                 <$> filter (λ p, path_exists p = true) files),
     Ok ()).
Proof.
  induction files as [|p files IH]; intros written Habs Hwrite.
  { cbn [write_lines]. by rewrite app_nil_r. }
  cbn [write_lines]. destruct (path_exists p) eqn:E.
  - rewrite (Habs p) by (done || by left). rewrite Hwrite.
    rewrite filter_cons_True by done. rewrite fmap_cons.
    rewrite IH; [by rewrite <- app_assoc | | done].
    intros q Hq. apply Habs. by right.
  - rewrite filter_cons_False by congruence.
    apply IH; [|done]. intros q Hq. apply Habs. by right.
Qed.

End CombinerFacts.

(** ** Header lines *)

Section HeaderLineFacts.

Lemma headers_of_save_current st :
  headers_of (save_current st) = headers_of (segments st).
Proof.
  unfold save_current. destruct (truthy (current_text st)); [|done].
  destruct (truthy (strip _)); [|done].
  rewrite headers_of_app, (headers_of_content [_]); [by rewrite app_nil_r|].
  by repeat constructor.
Qed.

Lemma header_loop_headers lines : ∀ st,
  headers_of (segments (foldl header_step st lines))
  = headers_of (segments st) ++ omap header_of_line lines.
Proof.
  induction lines as [|line lines IH]; intros st.
  { simpl. by rewrite app_nil_r. }
  cbn [foldl omap list_omap]. rewrite IH.
  unfold header_step, header_of_line.
  destruct (Re.header_match (strip line)) as [g|]; simpl.
  - rewrite headers_of_app, headers_of_save_current, <- app_assoc. f_equal.
  - by destruct (truthy (strip line)).
Qed.

Lemma split_by_headers_headers txt :
  headers_of (_split_by_headers txt) = omap header_of_line (Py.split NL txt).
Proof.
  unfold _split_by_headers.
  by rewrite headers_of_save_current, header_loop_headers.
Qed.

End HeaderLineFacts.

(** ** [extract_headers] and [_split_by_headers] *)

Section AgreementFacts.

Lemma split_nonempty sep s : Py.split sep s ≠ [].
Proof.
  destruct s as [|c s]; simpl; [done|].
  destruct (c =? sep); [done|]. by destruct (Py.split sep s).
Qed.

(** Joining the lines of a text gives the text back. *)
Lemma join_split s : join [NL] (Py.split NL s) = s.
Proof.
  induction s as [|c s IH]; [done|]. simpl.
  pose proof (split_nonempty NL s) as Hne.
  destruct (N.eqb_spec c NL) as [->|Hc].
  - destruct (Py.split NL s) as [|l ls]; [done|].
    change (join [NL] ([] :: l :: ls)) with (NL :: join [NL] (l :: ls)).
    by rewrite IH.
  - destruct (Py.split NL s) as [|l ls]; [done|].
    destruct ls as [|l2 ls]; simpl in *; by rewrite <- IH.
Qed.

Lemma take_while_stop p a c s :
  Forall (λ c, p c = true) a → p c = false → take_while p (a ++ c :: s) = a.
Proof.
  induction 1 as [|d a Hd _ IH]; simpl; intros Hc; [by rewrite Hc|].
  rewrite Hd. by rewrite IH.
Qed.

Lemma not_NL_Forall s :
  NL ∉ s → Forall (λ c, negb (c =? NL) = true) s.
Proof.
  intros Hs. apply Forall_forall. intros c Hc.
  destruct (N.eqb_spec c NL) as [->|]; done.
Qed.

(** A line in front of a newline: group 2 of a match ends where the line
    ends. *)
Lemma dot_plus_eol_line s r :
  s ≠ [] → NL ∉ s →
  dot_plus_eol_rest (s ++ NL :: r) = Some (s, NL :: r)
  ∧ Re.dot_plus_eol s = Some s.
Proof.
  intros Hne Hnl. apply not_NL_Forall in Hnl.
  unfold dot_plus_eol_rest, Re.dot_plus_eol.
  rewrite take_while_stop, drop_while_stop, take_while_id by done.
  by destruct s.
Qed.

Lemma spaces_then_text_line s : ∀ r,
  s ≠ [] → (∀ c, last s = Some c → visible c) → NL ∉ s →
  spaces_then_text_rest (s ++ NL :: r)
  = (λ g, (g, NL :: r)) <$> Re.spaces_then_text s.
Proof.
  induction s as [|c s IH]; intros r Hne Hlast Hnl; [done|].
  cbn [app spaces_then_text_rest Re.spaces_then_text].
  destruct (isspace c) eqn:Hc; [|done].
  assert (s ≠ []) as Hs.
  { intros ->. specialize (Hlast c eq_refl). unfold visible in Hlast. congruence. }
  assert (NL ∉ s) as Hnl' by (intros Hin; apply Hnl; by right).
  rewrite IH; [|done| |done].
  - destruct (Re.spaces_then_text s); [done|]. simpl.
    by destruct (dot_plus_eol_line s r Hs Hnl') as [-> ->].
  - intros d Hd. apply Hlast. by rewrite last_cons, Hd.
Qed.

Lemma hashes_then_line n : ∀ s r,
  (∀ c, last s = Some c → visible c) → NL ∉ s →
  ¬ Forall (λ c, c = Re.HASH) s →
  hashes_then_rest n (s ++ NL :: r)
  = (λ g, (g, NL :: r)) <$> Re.hashes_then n s.
Proof.
  induction n as [|n IH]; intros s r Hlast Hnl Hnot; [done|].
  destruct s as [|c s]; [exfalso; apply Hnot; constructor|].
  cbn [app hashes_then_rest Re.hashes_then].
  unfold Re.is_hash. destruct (N.eqb_spec c Re.HASH) as [->|]; [|done].
  assert (¬ Forall (λ c, c = Re.HASH) s) as Hnot'.
  { intros Hall. apply Hnot. by constructor. }
  assert (s ≠ []) as Hs by (intros ->; apply Hnot'; constructor).
  assert (NL ∉ s) as Hnl' by (intros Hin; apply Hnl; by right).
  assert (∀ c, last s = Some c → visible c) as Hlast'.
  { intros d Hd. apply Hlast. by rewrite last_cons, Hd. }
  rewrite IH, spaces_then_text_line by done.
  by destruct (Re.hashes_then n s).
Qed.

(** The scan between two line starts finds nothing. *)
Lemma scan_to_newline x : ∀ fuel r,
  NL ∉ x → (length (x ++ NL :: r) < fuel)%nat →
  finditer_from fuel false (x ++ NL :: r) = finditer_from (S (length r)) true r.
Proof.
  induction x as [|c x IH]; intros fuel r Hnl Hfuel.
  - destruct fuel as [|fuel]; [simpl in Hfuel; lia|].
    remember (finditer_from (S (length r)) true r) as found eqn:Hfound.
    cbn [app finditer_from]. rewrite N.eqb_refl. subst found.
    apply finditer_fuel_enough; simpl in *; lia.
  - destruct fuel as [|fuel]; [simpl in Hfuel; lia|].
    remember (finditer_from (S (length r)) true r) as found eqn:Hfound.
    cbn [app finditer_from].
    destruct (N.eqb_spec c NL) as [->|_]; [exfalso; apply Hnl; by left|].
    subst found. apply IH; [intros Hin; apply Hnl; by right | simpl in *; lia].
Qed.

Lemma scan_to_end x : ∀ fuel, NL ∉ x → finditer_from fuel false x = [].
Proof.
  induction x as [|c x IH]; intros [|fuel] Hnl; try done.
  cbn [finditer_from].
  destruct (N.eqb_spec c NL) as [->|_]; [exfalso; apply Hnl; by left|].
  apply IH. intros Hin. apply Hnl. by right.
Qed.

(** The scan of a line that is followed by another one. *)
Lemma finditer_line line r :
  strip line = line → ¬ hashes_only line → NL ∉ line →
  finditer_from (S (length (line ++ NL :: r))) true (line ++ NL :: r)
  = option_list (Re.header_match line) ++ finditer_from (S (length r)) true r.
Proof.
  intros Hstrip Hnot Hnl.
  remember (finditer_from (S (length r)) true r) as found eqn:Hfound.
  cbn [finditer_from].
  destruct line as [|c line].
  { cbn [app hashes_then_rest]. change (Re.is_hash NL) with false. cbv iota.
    rewrite N.eqb_refl. subst found. done. }
  assert (¬ Forall (λ c, c = Re.HASH) (c :: line)) as Hall.
  { intros Hall. apply Hnot. by split. }
  apply stripped_iff in Hstrip as [_ Hlast].
  rewrite (hashes_then_line 6 (c :: line) r Hlast Hnl Hall).
  unfold Re.header_match. destruct (Re.hashes_then 6 (c :: line)) as [g|];
    cbn [fmap option_fmap option_map option_list app].
  - f_equal. subst found.
    apply (scan_to_newline [] _ r); [apply not_elem_of_nil|].
    cbn [app length]. rewrite length_app. simpl. lia.
  - destruct (N.eqb_spec c NL) as [->|_]; [exfalso; apply Hnl; by left|].
    subst found.
    apply scan_to_newline; [intros Hin; apply Hnl; by right|].
    cbn [app length]. lia.
Qed.

(** The scan of the last line. *)
Lemma finditer_last_line line :
  NL ∉ line →
  finditer_from (S (length line)) true line = option_list (Re.header_match line).
Proof.
  intros Hnl. cbn [finditer_from].
  pose proof (hashes_then_rest_fst 6 line) as Hfst. unfold Re.header_match.
  destruct (hashes_then_rest 6 line) as [[g rest]|] eqn:E.
  - rewrite <- Hfst. simpl. f_equal.
    apply hashes_then_rest_spec in E as (p & Hl & _).
    apply scan_to_end. intros Hin. apply Hnl. rewrite Hl, !elem_of_app. auto.
  - rewrite <- Hfst. simpl. destruct line as [|c line]; [done|].
    destruct (N.eqb_spec c NL) as [->|_]; [exfalso; apply Hnl; by left|].
    apply scan_to_end. intros Hin. apply Hnl. by right.
Qed.

Lemma finditer_lines lines :
  lines ≠ [] →
  Forall (λ line, strip line = line ∧ ¬ hashes_only line ∧ NL ∉ line) lines →
  finditer (join [NL] lines) = omap Re.header_match lines.
Proof.
  unfold finditer. intros Hne Hall.
  induction Hall as [|line lines (Hs & Hh & Hnl) Hall IH]; [done|].
  destruct lines as [|line2 lines].
  { cbn [join omap list_omap]. rewrite finditer_last_line by done.
    by destruct (Re.header_match line). }
  change (join [NL] (line :: line2 :: lines))
    with (line ++ NL :: join [NL] (line2 :: lines)).
  rewrite finditer_line, IH by done.
  cbn [omap list_omap]. by destruct (Re.header_match line).
Qed.

Lemma header_lines_texts lines :
  Forall (λ line, strip line = line) lines →
  strip <$> omap Re.header_match lines = text <$> omap header_of_line lines.
Proof.
  induction 1 as [|line lines Hs _ IH]; [done|].
  cbn [omap list_omap]. unfold header_of_line at 1. rewrite Hs.
  destruct (Re.header_match line) as [g|]; simpl; [f_equal|]; apply IH.
Qed.

End AgreementFacts.

(** ** The remainder as a candidate *)

Section RemainderFacts.

(** The round of a content segment whose last part is [t]: the sentence loop
    leaves [t] as [current_sentence]. *)
Lemma punctuation_step_trailing min_len hdr s pre t result :
  Re.split s = pre ++ [t] → Nat.even (length pre) = true →
  punctuation_step min_len result (mkSegment s hdr false)
  = remainder_step min_len hdr t (sentence_loop min_len hdr 0 pre [] result).2.
Proof.
  intros Hs Hev. unfold punctuation_step. cbn [is_header text header].
  rewrite Hs, sentence_loop_cat.
  pose proof (sentence_loop_cur_empty min_len hdr pre 0 [] result) as Hcur.
  destruct (sentence_loop min_len hdr 0 pre [] result) as [c r].
  assert (c = []) as -> by (apply Hcur; [done | by right]).
  change (0 + length pre)%nat with (length pre).
  cbn [sentence_loop snd]. by rewrite Hev.
Qed.

(** A segment with a visible character comes from a text with one. *)
Lemma pre_split_member_visible self txt segment :
  segment ∈ pre_split self txt → nows (text segment) ≠ [] → strip txt ≠ [].
Proof.
  intros Hin Hvis. rewrite strip_nows_nil. intros Hnil.
  destruct (pre_split_keeps self txt) as [Hsub _]. rewrite Hnil in Hsub.
  apply sublist_nil_r in Hsub.
  apply list_elem_of_split in Hin as (l1 & l2 & Hl). rewrite Hl in Hsub.
  rewrite content_of_app, content_of_cons in Hsub.
  apply app_eq_nil in Hsub as [_ Hsub]. by apply app_eq_nil in Hsub as [Hsub _].
Qed.

(** A remainder long enough is in what [parse] returns, as a segment whose
    text starts with it. *)
Lemma parse_keeps_remainder self txt segment pre t :
  split_by_punctuation self = true →
  segment ∈ pre_split self txt → is_header segment = false →
  Re.split (text segment) = pre ++ [t] → Nat.even (length pre) = true →
  strip t ≠ [] → (min_segment_length self ≤ len (strip t))%Z →
  ∃ segs, parse self txt = Ok segs
          ∧ Exists (carries (strip t) (header segment)) segs.
Proof.
  intros Hpunct Hin Hh Hs Hev Hne Hlen.
  assert (strip txt ≠ []) as Htxt.
  { apply (pre_split_member_visible self txt segment Hin).
    rewrite <- (nows_split_from (length (text segment))).
    fold (Re.split (text segment)). rewrite Hs, concat_app, nows_app.
    simpl. rewrite app_nil_r. intros Hnil. apply app_eq_nil in Hnil as [_ Hnil].
    by apply Hne, strip_nows_nil. }
  rewrite parse_stages. apply truthy_true in Htxt. rewrite Htxt.
  unfold split_stages. rewrite Hpunct.
  destruct (punctuation_loop_total (min_segment_length self) (pre_split self txt) [])
    as [out Hout].
  unfold _split_by_punctuation at 1. rewrite Hout. simpl.
  eexists. split; [done|].
  assert (Exists (carries (strip t) (header segment)) out) as Hex.
  { pose proof Hin as Hin'.
    apply list_elem_of_split in Hin' as (segs1 & segs2 & Hsegs).
    rewrite Hsegs, punctuation_loop_app in Hout.
    destruct (punctuation_loop (min_segment_length self) segs1 []) as [r1|];
      [|done].
    simpl in Hout.
    destruct (punctuation_step (min_segment_length self) r1 segment)
      as [r2|] eqn:E; [|done].
    simpl in Hout. eapply punctuation_loop_carries; [exact Hout|].
    destruct segment as [s hdr b]. simpl in Hh, Hs. subst b.
    rewrite (punctuation_step_trailing _ _ _ _ _ _ Hs Hev) in E.
    rewrite remainder_step_long in E by done. injection E as <-.
    apply Exists_app. right. left. by split_and!. }
  apply Exists_exists in Hex as (s' & Hs' & Hc).
  apply Exists_exists. exists s'. split; [|done].
  apply list_elem_of_filter. split; [|done].
  destruct Hc as ([x Hx] & _ & _). unfold long_enough. rewrite Hx.
  destruct (strip_spec t) as (_ & _ & _ & _ & _ & Hstripped).
  pose proof (strip_prefix _ x Hstripped Hne) as Hpre.
  apply prefix_length in Hpre. unfold len in *. lia.
Qed.

End RemainderFacts.

(** ** Verified properties *)

(** C7. For every text and every choice of the three options, [parse] returns
    a list of segments: no path of it raises. *)
Theorem parse_never_fails (self : TextParser) (txt : str) :
  ∃ segs : list TextSegment, parse self txt = Ok segs.
Proof. apply parse_total. Qed.

(** C8. For every input and every option combination (a minimum length of 0
    included), every segment [parse] returns has a text that is not empty after
    trimming: empty segments are dropped when segments are built. *)
Theorem parse_text_never_blank (self : TextParser) (txt : str) :
  ∃ segs, parse self txt = Ok segs ∧ Forall (λ s, strip (text s) ≠ []) segs.
Proof.
  destruct (parse_total self txt) as [segs Hp]. exists segs. split; [done|].
  eapply parse_Forall; [| | | exact Hp].
  - apply pre_split_nonblank.
  - intros s t _ _. apply fresh_nonblank.
  - intros prev rem _ _. apply merged_nonblank.
Qed.

(** C3. For a text without header lines, parsing with [split_by_headers = true]
    returns no header segment, and every returned segment has no header
    value. *)
Theorem parse_no_headers (self : TextParser) (txt : str) :
  split_by_headers self = true →
  no_header_lines txt →
  ∃ segs, parse self txt = Ok segs
          ∧ Forall (λ s, is_header s = false ∧ header s = None) segs.
Proof.
  intros Hsplit Hno.
  destruct (parse_total self txt) as [segs Hp]. exists segs. split; [done|].
  assert (Forall (λ s, is_header s = false ∧ header s = None) (pre_split self txt))
    as Hpre.
  { unfold pre_split. rewrite Hsplit. by apply split_by_headers_no_headers. }
  eapply parse_Forall; [| | | exact Hp].
  - done.
  - intros s t Hs _ _ _. simpl. split; [done|].
    by apply (proj1 (Forall_forall _ _) Hpre).
  - by intros prev rem [? ?] _ _ _.
Qed.

Lemma parse_no_headers_witness :
  ∃ segs, parse (mkParser true true 5)
                (lit "One two three. Four" ++ [NL] ++ lit "#five six") = Ok segs
          ∧ Forall (λ s, is_header s = false ∧ header s = None) segs.
Proof.
  apply parse_no_headers; [reflexivity|].
  unfold no_header_lines. vm_compute. repeat constructor.
Defined.

(** *** The two scenarios *)

(** C1, as stated, fails: with a minimum length of 10 [parse] does not return
    the three segments of the scenario. *)
Lemma intro_scenario_three_segments_fails :
  parse (mkParser true true 10) intro_text
  ≠ Ok [intro_header; intro_hello; intro_test].
Proof. vm_compute. discriminate. Qed.

(** C1, amended. For the text ["# Intro\nHello world. This is a test sentence
    that is long enough."] and a minimum length of 10, the two splitting stages
    produce the header segment "Intro" and the two content segments, in this
    order; the header text has 5 characters, and [parse] returns exactly the
    two content segments, both under the header "Intro". *)
Theorem intro_scenario :
  _split_by_punctuation 10 (_split_by_headers intro_text)
  = Ok [intro_header; intro_hello; intro_test]
  ∧ len (strip (text intro_header)) = 5%Z
  ∧ parse (mkParser true true 10) intro_text = Ok [intro_hello; intro_test].
Proof. by vm_compute. Qed.

(** C6. For ["A. B. C."] with [split_by_headers = false] and a minimum length
    of 1, the whole text is first one trimmed content segment without header,
    and [parse] returns the content segments "A.", "B.", "C." in this order,
    each without header. *)
Theorem abc_scenario :
  pre_split (mkParser false true 1) (lit "A. B. C.")
  = [mkSegment (lit "A. B. C.") None false]
  ∧ parse (mkParser false true 1) (lit "A. B. C.")
    = Ok [mkSegment (lit "A.") None false;
          mkSegment (lit "B.") None false;
          mkSegment (lit "C.") None false].
Proof. by vm_compute. Qed.

(** *** The short trailing remainder *)

(** C2, as stated, fails: for the text "Hi" and the default options the
    remainder is "Hi" (2 characters, minimum 50), nothing was emitted before
    it, and yet no segment [parse] returns carries it. *)
Lemma short_remainder_not_returned :
  sentence_loop 50 None 0 (Re.split (lit "Hi")) [] [] = (lit "Hi", [])
  ∧ ¬ ∃ segs, parse (mkParser true true 50) (lit "Hi") = Ok segs
              ∧ Exists (λ s, text s = lit "Hi") segs.
Proof.
  split; [by vm_compute|].
  intros (segs & Hp & Hex). vm_compute in Hp. injection Hp as <-.
  by apply Exists_nil in Hex.
Qed.

(** C2, amended. When the sentences of a content segment leave a non-empty
    remainder shorter than the minimum, and the segment emitted last is a
    header segment or there is none, [_split_by_punctuation] emits the
    remainder as a content segment of its own, under the header of the segment
    it comes from, as the last element of what it returns. *)
Theorem short_remainder_emitted (min_len : Z) (segs : list TextSegment)
    (segment : TextSegment) (result e : list TextSegment) (cur : str) :
  _split_by_punctuation min_len segs = Ok result →
  is_header segment = false →
  sentence_loop min_len (header segment) 0 (Re.split (text segment)) [] []
  = (cur, e) →
  strip cur ≠ [] → (len (strip cur) < min_len)%Z →
  (∀ prev, last (result ++ e) = Some prev → is_header prev = true) →
  _split_by_punctuation min_len (segs ++ [segment])
  = Ok (result ++ e ++ [mkSegment (strip cur) (header segment) false]).
Proof.
  intros Hsegs Hh Hloop Hne Hshort Hlast.
  rewrite (split_by_punctuation_snoc _ _ _ _ Hsegs).
  unfold punctuation_step. rewrite Hh, sentence_loop_app, Hloop.
  rewrite remainder_step_alone by done. by rewrite <- app_assoc.
Qed.

Lemma short_remainder_emitted_witness :
  _split_by_punctuation 50
    ([mkSegment (lit "Title") (Some (lit "Title")) true]
     ++ [mkSegment (lit "Hi") (Some (lit "Title")) false])
  = Ok ([mkSegment (lit "Title") (Some (lit "Title")) true] ++ []
        ++ [mkSegment (strip (lit "Hi")) (Some (lit "Title")) false]).
Proof.
  apply (short_remainder_emitted 50
           [mkSegment (lit "Title") (Some (lit "Title")) true]
           (mkSegment (lit "Hi") (Some (lit "Title")) false)).
  - reflexivity.
  - reflexivity.
  - reflexivity.
  - vm_compute. discriminate.
  - vm_compute. reflexivity.
  - intros prev. vm_compute. intros [= <-]. reflexivity.
Defined.

(** C10. The segment a short remainder is appended to is the one emitted
    last, whichever input segment it came from: when the segments before
    [segment] left a content segment [prev] last, and [segment] keeps no
    sentence and leaves a short non-empty remainder, that remainder is appended
    to the text of [prev]; the header of [prev] stays and [segment]'s own
    header is not used. *)
Theorem remainder_merges_across_sections (min_len : Z)
    (segs : list TextSegment) (segment prev : TextSegment)
    (acc : list TextSegment) (cur : str) :
  _split_by_punctuation min_len segs = Ok (acc ++ [prev]) →
  is_header prev = false →
  is_header segment = false →
  sentence_loop min_len (header segment) 0 (Re.split (text segment)) [] []
  = (cur, []) →
  strip cur ≠ [] → (len (strip cur) < min_len)%Z →
  _split_by_punctuation min_len (segs ++ [segment])
  = Ok (acc ++ [mkSegment (text prev ++ [SPACE] ++ strip cur) (header prev) false]).
Proof.
  intros Hsegs Hprev Hh Hloop Hne Hshort.
  rewrite (split_by_punctuation_snoc _ _ _ _ Hsegs).
  unfold punctuation_step. rewrite Hh, sentence_loop_app, Hloop, app_nil_r.
  rewrite remainder_step_merge by done.
  unfold merged, set_text. by rewrite Hprev.
Qed.

Lemma remainder_merges_across_sections_witness :
  _split_by_punctuation 10
    ([mkSegment (lit "Alpha beta gamma.") (Some (lit "A")) false]
     ++ [mkSegment (lit "tail") (Some (lit "B")) false])
  = Ok ([] ++ [mkSegment (lit "Alpha beta gamma." ++ [SPACE] ++ strip (lit "tail"))
                         (Some (lit "A")) false]).
Proof.
  apply (remainder_merges_across_sections 10
           [mkSegment (lit "Alpha beta gamma.") (Some (lit "A")) false]
           (mkSegment (lit "tail") (Some (lit "B")) false)
           (mkSegment (lit "Alpha beta gamma.") (Some (lit "A")) false) []).
  - reflexivity.
  - reflexivity.
  - reflexivity.
  - reflexivity.
  - vm_compute. discriminate.
  - vm_compute. reflexivity.
Defined.

(** *** The minimum-length boundary *)

(** C5. A candidate sentence of a content segment is a text part of
    [re.split] together with the punctuation part after it, or the text part
    left last (the remainder); [before] is what the sentence loop had emitted
    when it reached the candidate.

    A candidate with its punctuation: if trimmed it has exactly [min_len]
    characters, the loop goes on with the candidate appended to [before], and
    [parse] returns a segment that carries it; if it has exactly
    [min_len - 1] characters, the loop goes on with [before] as it was.

    The remainder, when it is not blank: if trimmed it has exactly [min_len]
    characters, the round of the segment ends with the remainder appended to
    [before] as a segment of its own, and [parse] returns a segment that
    carries it; if it has exactly [min_len - 1] characters it is not emitted
    as a sentence but handled by the remainder rule: appended to the text of
    the segment emitted last when that is a content segment, and emitted on
    its own when that is a header segment or nothing was emitted. *)
Theorem candidate_length_boundary (min_len : Z) (hdr : option str) (s : str)
    (pre : list str) (t : str) (rest : list str) :
  Re.split s = pre ++ t :: rest →
  Nat.even (length pre) = true →
  let before result := (sentence_loop min_len hdr 0 pre [] result).2 in
  let returned candidate :=
    ∀ self txt,
      min_segment_length self = min_len → split_by_punctuation self = true →
      mkSegment s hdr false ∈ pre_split self txt →
      ∃ segs, parse self txt = Ok segs ∧ Exists (carries candidate hdr) segs in
  match rest with
  | p :: post =>
      let candidate := strip (t ++ p) in
      (len candidate = min_len →
       (∀ result,
          sentence_loop min_len hdr 0 (Re.split s) [] result
          = sentence_loop min_len hdr (length pre + 2) post []
              (before result ++ [mkSegment candidate hdr false]))
       ∧ returned candidate)
      ∧ (len candidate = (min_len - 1)%Z →
         ∀ result,
           sentence_loop min_len hdr 0 (Re.split s) [] result
           = sentence_loop min_len hdr (length pre + 2) post [] (before result))
  | [] =>
      let candidate := strip t in
      candidate ≠ [] →
      (len candidate = min_len →
       (∀ result,
          punctuation_step min_len result (mkSegment s hdr false)
          = Ok (before result ++ [mkSegment candidate hdr false]))
       ∧ returned candidate)
      ∧ (len candidate = (min_len - 1)%Z →
         (∀ result init prev,
            before result = init ++ [prev] → is_header prev = false →
            punctuation_step min_len result (mkSegment s hdr false)
            = Ok (init ++ [merged prev candidate]))
         ∧ (∀ result,
              (∀ prev, last (before result) = Some prev → is_header prev = true) →
              punctuation_step min_len result (mkSegment s hdr false)
              = Ok (before result ++ [mkSegment candidate hdr false])))
  end.
Proof.
  intros Hs Hev before returned. destruct rest as [|p post].
  - intros candidate Hne. split.
    + intros Hlen. split.
      * intros result. rewrite (punctuation_step_trailing _ _ _ _ _ _ Hs Hev).
        apply remainder_step_long; [done|]. fold candidate. lia.
      * intros self txt Hmin Hpunct Hin.
        apply (parse_keeps_remainder self txt (mkSegment s hdr false) pre t);
          try done.
        fold candidate. lia.
    + intros Hlen. split.
      * intros result init prev Hbefore Hprev.
        rewrite (punctuation_step_trailing _ _ _ _ _ _ Hs Hev).
        fold (before result). rewrite Hbefore.
        apply remainder_step_merge; [done | fold candidate; lia | done].
      * intros result Hlast.
        rewrite (punctuation_step_trailing _ _ _ _ _ _ Hs Hev).
        apply remainder_step_alone; [done | fold candidate; lia | done].
  - intros candidate. split.
    + intros Hlen. split.
      * intros result.
        destruct (sentence_loop_at_candidate min_len hdr _ _ _ _ _ result Hs Hev)
          as [_ ->].
        by rewrite bool_decide_eq_true_2 by (fold candidate; lia).
      * intros self txt Hmin Hpunct Hin.
        apply (parse_keeps_candidate self txt (mkSegment s hdr false) pre t p post);
          try done.
        fold candidate. lia.
    + intros Hlen result.
      destruct (sentence_loop_at_candidate min_len hdr _ _ _ _ _ result Hs Hev)
        as [_ ->].
      by rewrite bool_decide_eq_false_2 by (fold candidate; lia).
Qed.

Lemma candidate_length_boundary_witness :
  (sentence_loop 2 None 0 (Re.split (lit "A. B. C.")) [] []
   = sentence_loop 2 None (length (@nil str) + 2) [lit "B"; lit "."; lit "C."] []
       ([] ++ [mkSegment (strip (lit "A" ++ lit ".")) None false]))
  ∧ (∃ segs, parse (mkParser false true 2) (lit "A. B. C.") = Ok segs
             ∧ Exists (carries (strip (lit "A" ++ lit ".")) None) segs)
  ∧ (sentence_loop 3 None 0 (Re.split (lit "A. B. C.")) [] []
     = sentence_loop 3 None (length (@nil str) + 2) [lit "B"; lit "."; lit "C."] [] [])
  ∧ (punctuation_step 6 [] (mkSegment (lit "Hello there. World.") None false)
     = Ok ([mkSegment (lit "Hello there.") None false]
           ++ [mkSegment (lit "World.") None false]))
  ∧ (∃ segs, parse (mkParser false true 6) (lit "Hello there. World.") = Ok segs
             ∧ Exists (carries (lit "World.") None) segs)
  ∧ (punctuation_step 7 [] (mkSegment (lit "Hello there. World.") None false)
     = Ok ([] ++ [merged (mkSegment (lit "Hello there.") None false) (lit "World.")]))
  ∧ (punctuation_step 7 [] (mkSegment (lit "Hi. World.") None false)
     = Ok ([] ++ [mkSegment (lit "World.") None false])).
Proof.
  split_and!.
  - apply (candidate_length_boundary 2 None (lit "A. B. C.") []
             (lit "A") [lit "."; lit "B"; lit "."; lit "C."]);
      reflexivity.
  - apply (candidate_length_boundary 2 None (lit "A. B. C.") []
             (lit "A") [lit "."; lit "B"; lit "."; lit "C."]);
      try reflexivity.
    vm_compute. left.
  - apply (candidate_length_boundary 3 None (lit "A. B. C.") []
             (lit "A") [lit "."; lit "B"; lit "."; lit "C."]);
      reflexivity.
  - destruct (candidate_length_boundary 6 None (lit "Hello there. World.")
                [lit "Hello there"; lit "."] (lit "World.") [])
      as [Hexact _]; [reflexivity | reflexivity | vm_compute; discriminate |].
    apply Hexact. reflexivity.
  - destruct (candidate_length_boundary 6 None (lit "Hello there. World.")
                [lit "Hello there"; lit "."] (lit "World.") [])
      as [Hexact _]; [reflexivity | reflexivity | vm_compute; discriminate |].
    apply Hexact; [reflexivity | reflexivity | reflexivity |].
    vm_compute. left.
  - destruct (candidate_length_boundary 7 None (lit "Hello there. World.")
                [lit "Hello there"; lit "."] (lit "World.") [])
      as [_ Hshort]; [reflexivity | reflexivity | vm_compute; discriminate |].
    apply Hshort; reflexivity.
  - destruct (candidate_length_boundary 7 None (lit "Hi. World.")
                [lit "Hi"; lit "."] (lit "World.") [])
      as [_ Hshort]; [reflexivity | reflexivity | vm_compute; discriminate |].
    apply Hshort; [reflexivity|].
    intros prev. vm_compute. discriminate.
Defined.

(** *** Reconstruction of the text *)

(** C4, as stated, fails: with a minimum length of 10 the sentence "Hi." of
    ["Hi. This is long enough."] is in no returned segment; and for
    ["Helloworld.\nfoo"] the returned text has a space, a character the input
    does not have. *)
Lemma reconstruction_fails :
  ¬ reconstructs (mkParser true true 10) (lit "Hi. This is long enough.")
  ∧ parse (mkParser true true 10) (lit "Helloworld." ++ [NL] ++ lit "foo")
    = Ok [mkSegment (lit "Helloworld. foo") None false]
  ∧ SPACE ∉ lit "Helloworld." ++ [NL] ++ lit "foo".
Proof.
  split_and!.
  - intros (segs & Hp & Hc). vm_compute in Hp. injection Hp as <-.
    vm_compute in Hc. discriminate.
  - by vm_compute.
  - intros H. vm_compute in H. by repeat (apply elem_of_cons in H as [H|H]; [done|]);
      apply elem_of_nil in H.
Qed.

(** C4, amended. For every text and all options, the texts of the segments
    [parse] returns, concatenated in order and with whitespace removed, are a
    subsequence of the input with whitespace removed: no visible character is
    invented or moved, but some can be missing (header markers, sentences and
    segments below the minimum length).  Nothing is missing when the minimum
    length is at most 1 and no line is a header line (or header splitting is
    off). *)
Theorem parse_keeps_content (self : TextParser) (txt : str) :
  ∃ segs, parse self txt = Ok segs
    ∧ content_of segs `sublist_of` nows txt
    ∧ ((min_segment_length self ≤ 1)%Z →
       split_by_headers self = false ∨ no_header_lines txt →
       content_of segs = nows txt).
Proof.
  rewrite parse_stages. destruct (truthy (strip txt)) eqn:Ht.
  - apply truthy_true in Ht.
    destruct (split_stages_total self txt) as [r Hr]. rewrite Hr. simpl.
    eexists. split; [done|].
    destruct (split_stages_keeps _ _ _ Hr) as [Hsub Heq]. split.
    + etrans; [|exact Hsub]. apply content_of_sublist, sublist_filter.
    + intros Hmin Hhead. rewrite filter_all; [by apply Heq|].
      eapply Forall_impl; [by eapply split_stages_nonblank|].
      intros s Hs. unfold long_enough, len. simpl in Hs.
      destruct (strip (text s)); [done|]. simpl length. lia.
  - apply truthy_false, strip_nows_nil in Ht. exists []. rewrite Ht.
    by split_and!.
Qed.

Lemma parse_keeps_content_witness :
  ∃ segs, parse (mkParser false true 1) (lit "A. B. C.") = Ok segs
          ∧ content_of segs = nows (lit "A. B. C.").
Proof.
  destruct (parse_keeps_content (mkParser false true 1) (lit "A. B. C."))
    as (segs & Hp & _ & He).
  exists segs. split; [exact Hp|]. apply He; [simpl; lia | by left].
Defined.

(** *** The combiner *)

(** C9. Given an empty list of segment files, [combine_audio_files] raises
    [ValueError], whatever the environment, the output path and the
    normalisation flag are, and it has done nothing before: no directory made,
    no file written, ffmpeg not run. *)
Theorem combine_audio_files_empty (dirname : string → string)
    (makedirs : string → res unit) (temp_file : res string)
    (path_exists : string → bool) (abspath : string → res string)
    (write : nat → string → res unit) (close : list string → res unit)
    (ffmpeg_run : ffmpeg_job → res unit) (temp_list_left : bool)
    (remove : string → res unit) (output_path : string) (normalize : bool) :
  combine_audio_files dirname makedirs temp_file path_exists abspath write close
    ffmpeg_run temp_list_left remove [] output_path normalize
  = ([], Raise (ValueError "No audio files to combine")).
Proof. reflexivity. Qed.

(** ** Further properties *)

(** X1. Every segment [parse] returns has a trimmed text (no whitespace at
    either end, not empty) of at least [min_segment_length] characters; this
    holds of merged segments and of header segments too. *)
Theorem parse_segments_trimmed (self : TextParser) (txt : str) :
  ∃ segs, parse self txt = Ok segs
    ∧ Forall (λ s, text s ≠ [] ∧ strip (text s) = text s
                   ∧ (min_segment_length self ≤ len (text s))%Z) segs.
Proof.
  rewrite parse_stages. destruct (truthy (strip txt)) eqn:Ht.
  - apply truthy_true in Ht.
    destruct (split_stages_total self txt) as [r Hr]. rewrite Hr. simpl.
    eexists. split; [done|].
    pose proof (split_stages_trimmed _ _ _ Ht Hr) as Hall.
    apply Forall_forall. intros s Hs.
    apply list_elem_of_filter in Hs as [Hlong Hs].
    destruct (proj1 (Forall_forall _ _) Hall s Hs) as [Hne Hst].
    split_and!; [done | done |]. unfold long_enough in Hlong. by rewrite Hst in Hlong.
  - exists []. split; [done | constructor].
Qed.

(** X2. In what [parse] returns, a header segment has its own text as header
    value. *)
Theorem parse_header_segments (self : TextParser) (txt : str) :
  ∃ segs, parse self txt = Ok segs
    ∧ Forall (λ s, is_header s = true → header s = Some (text s)) segs.
Proof.
  destruct (parse_total self txt) as [segs Hp]. exists segs. split; [done|].
  eapply parse_Forall; [| | | exact Hp].
  - intros _. apply pre_split_header_text.
  - by intros s t _ _ _ _.
  - intros prev rem _ Hh _ _. simpl. by rewrite Hh.
Qed.

(** X3. Header tracking. In what header splitting returns, and in what
    punctuation splitting makes of it, every header segment has its own text as
    header value and every content segment has the text of the nearest header
    segment before it, or no header value when there is none before it. *)
Theorem headers_track_sections (txt : str) :
  tracks None (_split_by_headers txt)
  ∧ ∀ min_len, ∃ out,
      _split_by_punctuation min_len (_split_by_headers txt) = Ok out
      ∧ tracks None out.
Proof.
  split; [apply split_by_headers_tracks|]. intros min_len.
  destruct (punctuation_loop_total min_len (_split_by_headers txt) []) as [out Hout].
  exists out. split; [exact Hout|].
  eapply (punctuation_loop_tracks min_len None _ None []); [done | done | | exact Hout].
  apply split_by_headers_tracks.
Qed.

(** X4. Punctuation splitting passes the header segments through: the header
    segments of its result are those of its input, unchanged and in the same
    order. *)
Theorem header_segments_pass_through (min_len : Z) (segs : list TextSegment) :
  ∃ out, _split_by_punctuation min_len segs = Ok out
         ∧ headers_of out = headers_of segs.
Proof.
  destruct (punctuation_loop_total min_len segs []) as [out Hout].
  exists out. split; [exact Hout|].
  by rewrite (punctuation_loop_headers min_len _ _ _ Hout).
Qed.

(** X5. Inside [parse] a short remainder never joins another section: when
    punctuation splitting reaches a content segment of what header splitting
    returned, the segment emitted last, if there is one, is a header segment,
    so the only sentences a remainder can be appended to are those of its own
    segment. *)
Theorem no_merge_across_sections (min_len : Z) (txt : str)
    (before : list TextSegment) (segment : TextSegment)
    (after : list TextSegment) :
  _split_by_headers txt = before ++ segment :: after →
  is_header segment = false →
  ∃ result, _split_by_punctuation min_len before = Ok result
            ∧ ∀ prev, last result = Some prev → is_header prev = true.
Proof.
  intros Hsplit Hseg.
  pose proof (split_by_headers_separated txt) as Hsep.
  rewrite Hsplit, separated_app in Hsep. destruct Hsep as [_ Hsep].
  simpl in Hsep. rewrite Hseg in Hsep. destruct Hsep as [Hopen _].
  apply open_after_last in Hopen as [->|(l & s & -> & Hs)].
  { exists []. split; [done|]. by intros prev. }
  destruct (punctuation_loop_total min_len l []) as [r Hr].
  exists (r ++ [s]). split.
  - rewrite (split_by_punctuation_snoc min_len l s r Hr).
    unfold punctuation_step. by rewrite Hs.
  - intros prev. rewrite last_snoc. by intros [= <-].
Qed.

Lemma no_merge_across_sections_witness :
  ∃ result,
    _split_by_punctuation 50
      [mkSegment (lit "One") None false; mkSegment (lit "A") (Some (lit "A")) true]
    = Ok result
    ∧ ∀ prev, last result = Some prev → is_header prev = true.
Proof.
  apply (no_merge_across_sections 50
           (lit "One" ++ [NL] ++ lit "# A" ++ [NL] ++ lit "two")
           [mkSegment (lit "One") None false; mkSegment (lit "A") (Some (lit "A")) true]
           (mkSegment (lit "two") (Some (lit "A")) false) []);
    reflexivity.
Defined.

(** X6. A text of whitespace only, the empty text included, gives no segment,
    whatever the options are; and with a minimum length of at most 1 these are
    the only texts that give none. *)
Theorem parse_empty_iff (self : TextParser) (txt : str) :
  (Forall blank txt → parse self txt = Ok [])
  ∧ ((min_segment_length self ≤ 1)%Z → parse self txt = Ok [] → Forall blank txt).
Proof.
  split.
  - intros Hb. apply strip_nil_iff in Hb. unfold parse. by rewrite Hb.
  - intros Hmin Hp. apply strip_nil_iff.
    destruct (decide (strip txt = [])) as [|Ht]; [done|]. exfalso.
    rewrite parse_stages in Hp.
    pose proof Ht as Htr. apply truthy_true in Htr. rewrite Htr in Hp.
    destruct (split_stages self txt) as [r|] eqn:Hr; [|done]. simpl in Hp.
    rewrite filter_all in Hp.
    + injection Hp as ->. by eapply split_stages_some.
    + eapply Forall_impl; [by eapply split_stages_nonblank|].
      intros s Hs. unfold long_enough, len. simpl in Hs.
      destruct (strip (text s)); [done|]. simpl length. lia.
Qed.

Lemma parse_empty_iff_witness :
  parse (mkParser true true 50) (lit "  " ++ [NL] ++ lit " ") = Ok []
  ∧ Forall blank (@nil N).
Proof.
  split.
  - apply (parse_empty_iff (mkParser true true 50)). by repeat constructor.
  - apply (parse_empty_iff (mkParser false true 1) []); [simpl; lia | reflexivity].
Defined.

(** X7. Every header [extract_headers] returns is trimmed and has no newline;
    together, in the order returned, the headers are made of visible
    characters of the text in the order of the text; and a text without [#]
    has no header. *)
Theorem extract_headers_spec (txt : str) :
  Forall (λ h, strip h = h ∧ NL ∉ h) (extract_headers txt)
  ∧ nows (concat (extract_headers txt)) `sublist_of` nows txt
  ∧ (Re.HASH ∉ txt → extract_headers txt = []).
Proof.
  unfold extract_headers, finditer.
  destruct (finditer_from_spec (S (length txt)) true txt) as (H1 & H2 & H3).
  split_and!; [|done|].
  - apply Forall_fmap. eapply Forall_impl; [exact H1|].
    intros g [_ Hnl]. simpl. split; [apply strip_idem|].
    destruct (strip_spec g) as (a & b & Hg & _).
    intros Hin. rewrite Forall_forall in Hnl. apply (Hnl NL); [|done].
    rewrite Hg, !elem_of_app. auto.
  - intros Hno. by rewrite H3.
Qed.

Lemma extract_headers_spec_witness :
  extract_headers (lit "plain text" ++ [NL] ++ lit "more") = [].
Proof.
  apply (extract_headers_spec (lit "plain text" ++ [NL] ++ lit "more")).
  vm_compute. intros H.
  repeat (apply elem_of_cons in H as [H|H]; [done|]). by apply elem_of_nil in H.
Defined.

(** *** The logger *)

(** X8. For a started logger and a date less than 100 hours after the start
    (and not before it), [format_timestamp] returns 10 characters, and it
    returns different texts for dates whose whole seconds since the start
    differ. *)
Theorem format_timestamp_unambiguous `{Outside} (self : TTSLogger)
    (t0 dt1 dt2 : datetime) :
  start_time self = Some t0 →
  (0 ≤ elapsed_seconds t0 dt1 < 360000)%Z →
  (0 ≤ elapsed_seconds t0 dt2 < 360000)%Z →
  length (format_timestamp self dt1) = 10%nat
  ∧ (format_timestamp self dt1 = format_timestamp self dt2 →
     elapsed_seconds t0 dt1 = elapsed_seconds t0 dt2).
Proof.
  intros Hs H1 H2. unfold format_timestamp. rewrite Hs. split.
  - pose proof (format_hms_digits _ H1) as E. unfold hms in E. by rewrite E.
  - by apply format_hms_inj.
Qed.

Lemma format_timestamp_unambiguous_witness :
  length (@format_timestamp sample_outside
            (@mkLogger sample_outside [] [] (Some 0%Z) (Some 0%Z) 1) 3725%Z)
  = 10%nat.
Proof.
  apply (@format_timestamp_unambiguous sample_outside
           (@mkLogger sample_outside [] [] (Some 0%Z) (Some 0%Z) 1)
           0%Z 3725%Z 3725%Z); [reflexivity | simpl; lia | simpl; lia].
Defined.

(** X9. The log is append-only and in call order: after any sequence of
    logging calls on a new logger, started explicitly or by its first call,
    the entries are those of the calls, one per call and in the order of the
    calls, the n-th stamped with the reading the clock gave at its call; the
    start time is the first reading of the clock. *)
Theorem log_calls_recorded `{Outside} (path : str) (calls : list log_call) :
  let expected := imap (λ i call, call_entry (clock (S i)) call) calls in
  entries (foldl do_call (start (new_logger path)) calls) = expected
  ∧ entries (foldl do_call (new_logger path) calls) = expected
  ∧ start_time (foldl do_call (start (new_logger path)) calls) = Some (clock 0)
  ∧ (calls ≠ [] →
     start_time (foldl do_call (new_logger path) calls) = Some (clock 0)).
Proof.
  intros expected.
  destruct (run_calls_fresh path calls) as (He & Hs & _).
  split_and!; [done| |done|].
  - destruct calls as [|call calls]; [done|].
    cbn [foldl]. rewrite do_call_fresh. exact He.
  - destruct calls as [|call calls]; [done|]. intros _.
    cbn [foldl]. rewrite do_call_fresh. exact Hs.
Qed.

Lemma log_calls_recorded_witness :
  @start_time sample_outside
    (foldl (@do_call sample_outside) (@new_logger sample_outside (lit "log.txt"))
       [@CallInfo sample_outside (lit "hello")])
  = Some 0%Z.
Proof.
  apply (@log_calls_recorded sample_outside (lit "log.txt")
           [@CallInfo sample_outside (lit "hello")]).
  discriminate.
Defined.

(** X10. [write_log] leaves the file alone exactly when there is no entry.
    Otherwise it writes the title, the lines of the entries in order (a
    "File:" line after an entry with a path), and a summary whose total
    duration adds up, from 0.0 and in the order of the entries, the durations
    [get_total_duration] sums: those of the entries that have one that counts
    as true.  At most one more line follows. *)
Theorem write_log_total `{Outside} (self : TTSLogger) :
  match write_log self with
  | None => entries self = []
  | Some written =>
      entries self ≠ []
      ∧ ∃ after,
          written
          = [lit "TTS Generation Log" ++ [NL]; replicate 50 61 ++ [NL; NL]]
            ++ concat (entry_lines self <$> entries self)
            ++ [[NL] ++ replicate 50 61 ++ [NL];
                total_line (foldl float_add float_zero
                              (omap counted_duration (entries self)))]
            ++ after
          ∧ (length after ≤ 1)%nat
  end.
Proof.
  unfold write_log. destruct (truthy (entries self)) eqn:Ht.
  - rewrite write_entries_fold. split; [by apply truthy_true|].
    unfold total_line.
    destruct (start_time self) as [t0|], (current_time self) as [t1|].
    + exists [lit "Total processing time: "
              ++ format_2f (elapsed_float t0 t1) ++ lit " seconds" ++ [NL]].
      split; [by rewrite <- !app_assoc | simpl; lia].
    + exists []. split; [by rewrite app_nil_r, <- !app_assoc | simpl; lia].
    + exists []. split; [by rewrite app_nil_r, <- !app_assoc | simpl; lia].
    + exists []. split; [by rewrite app_nil_r, <- !app_assoc | simpl; lia].
  - by apply truthy_false.
Qed.

(** X11. The total [get_total_duration] returns for a log is the sum of the
    durations passed to [log_segment_end], in call order and those that count
    as false (zero) left out; no other call adds to it. *)
Theorem total_duration_of_calls `{Outside} (path : str) (calls : list log_call) :
  get_total_duration (foldl do_call (start (new_logger path)) calls)
  = float_sum (omap call_duration calls)
  ∧ get_total_duration (foldl do_call (new_logger path) calls)
    = float_sum (omap call_duration calls).
Proof.
  split; [apply total_of_calls|].
  destruct calls as [|call calls]; [done|].
  cbn [foldl]. rewrite do_call_fresh.
  apply (total_of_calls path (call :: calls)).
Qed.

(** *** The pipeline *)

(** X12. Once its logger is created [process_text] returns, whichever
    syntheses raise, and the files it returns are those of the content
    segments whose synthesis succeeded, in the order of the segments, each
    named after the position of its segment in what [parse] returned; header
    segments and failed segments give no file, so there are no more files
    than content segments. *)
Theorem process_text_files `{Engine} (parser : TextParser)
    (segments_dir log_file : str) (speaker : exception + option str)
    (txt : str) :
  ∃ segs st,
    parse parser txt = Ok segs
    ∧ process_text parser segments_dir log_file speaker txt = Ok st
    ∧ segment_files st = (fst <$> outputs_from segments_dir speaker 0 segs)
    ∧ (length (segment_files st) + length (headers_of segs) ≤ length segs)%nat.
Proof.
  destruct (process_text_log_calls parser segments_dir log_file speaker txt)
    as (segs & st & Hp & Hst & _ & Hfiles).
  exists segs, st. split_and!; [done | done | done |].
  rewrite Hfiles, length_fmap. apply outputs_from_length.
Qed.

(** X13. The log [process_text] returns is what these calls leave on a
    started logger: the two messages about parsing, then for each segment in
    order a header entry, or a start entry (under the text of the header
    segment seen last) followed by an end entry with the duration and the file
    when the synthesis succeeded, and by an error message when it raised; a
    failure never ends the run. *)
Theorem process_text_log `{Engine} (parser : TextParser)
    (segments_dir log_file : str) (speaker : exception + option str)
    (txt : str) :
  ∃ segs st,
    parse parser txt = Ok segs
    ∧ process_text parser segments_dir log_file speaker txt = Ok st
    ∧ logger_of st
      = foldl do_call (start (new_logger log_file))
          (CallInfo (lit "Starting text parsing...")
           :: CallInfo (lit "Parsed text into "
                        ++ decimal (N.of_nat (length segs)) ++ lit " segments")
           :: calls_from segments_dir speaker None 0 segs).
Proof.
  destruct (process_text_log_calls parser segments_dir log_file speaker txt)
    as (segs & st & Hp & Hst & Hlog & _).
  by exists segs, st.
Qed.

(** X14. The total duration of the log [process_text] returns is the sum of
    the durations of the syntheses that succeeded, in the order of the
    segments (zero durations left out). *)
Theorem process_text_total `{Engine} (parser : TextParser)
    (segments_dir log_file : str) (speaker : exception + option str)
    (txt : str) :
  ∃ segs st,
    parse parser txt = Ok segs
    ∧ process_text parser segments_dir log_file speaker txt = Ok st
    ∧ get_total_duration (logger_of st)
      = float_sum
          (omap (λ o, if float_truthy o.2 then Some o.2 else None)
                (outputs_from segments_dir speaker 0 segs)).
Proof.
  destruct (process_text_log_calls parser segments_dir log_file speaker txt)
    as (segs & st & Hp & Hst & Hlog & _).
  exists segs, st. split_and!; [done | done |].
  rewrite Hlog, total_of_calls. cbn [omap list_omap call_duration].
  by rewrite calls_from_durations.
Qed.

(** *** The combiner *)

(** X15. Given a list that is not empty, and when [os.makedirs], the
    creation of the temporary file, [os.path.abspath], the writes and the
    close do not raise, [combine_audio_files] runs ffmpeg once.  The list file
    it writes before has one line for each segment file that exists, in the
    order given; files that do not exist are left out without an error, even
    if that leaves no line at all.  The output directory is made first when
    the output path has one.  The temporary list file is removed afterwards if
    it is still there, also when ffmpeg failed; the call raises what
    [os.remove] raises if that fails, and otherwise returns or raises what
    ffmpeg did. *)
Theorem combine_audio_files_runs (dirname : string → string)
    (makedirs : string → res unit) (temp_file : res string)
    (path_exists : string → bool) (abspath : string → res string)
    (write : nat → string → res unit) (close : list string → res unit)
    (ffmpeg_run : ffmpeg_job → res unit) (temp_list_left : bool)
    (remove : string → res unit)
    (segment_files : list string) (output_path : string) (normalize : bool)
    (temp_list_path : string) (abs : string → string) :
  segment_files ≠ [] →
  (dirname output_path ≠ EmptyString → makedirs (dirname output_path) = Ok ()) →
  temp_file = Ok temp_list_path →
  (∀ p, p ∈ segment_files → path_exists p = true → abspath p = Ok (abs p)) →
  (∀ n line, write n line = Ok ()) →
  (∀ lines, close lines = Ok ()) →
  ∃ job,
    combine_audio_files dirname makedirs temp_file path_exists abspath write
      close ffmpeg_run temp_list_left remove segment_files output_path normalize
    = (match dirname output_path with
       | EmptyString => []
       | _ => [MakeDirs (dirname output_path)]
       end
       ++ [WriteList temp_list_path
             ((λ p, list_line (escape_quotes (abs p)))
              <$> filter (λ p, path_exists p = true) segment_files);
           RunFfmpeg job]
       ++ (if temp_list_left then [RemoveFile temp_list_path] else []),
       if temp_list_left then
         match remove temp_list_path with
         | Raise e => Raise e
         | Ok _ => ffmpeg_run job
         end
       else ffmpeg_run job)
    ∧ concat_list job = temp_list_path
    ∧ job_output job = output_path
    ∧ (audio_filter job = None ↔ normalize = false).
Proof.
  intros Hne Hdir Htemp Habs Hwrite Hclose. unfold combine_audio_files.
  assert (truthy segment_files = true) as -> by (by apply truthy_true).
  cbn [negb]. rewrite Htemp.
  rewrite (write_lines_ok path_exists abspath write abs segment_files []) by done.
  rewrite Hclose. cbn [app].
  exists (mkJob temp_list_path output_path "pcm_s16le" 22050 1
            (if normalize then Some "loudnorm=I=-16:TP=-1.5:LRA=11"%string
             else None)).
  split_and!; [| reflexivity | reflexivity | simpl; by destruct normalize].
  destruct (dirname output_path) as [|c d] eqn:Ed.
  - by destruct temp_list_left.
  - rewrite Hdir by done. by destruct temp_list_left.
Qed.

Lemma combine_audio_files_runs_witness :
  ∃ job,
    combine_audio_files (λ _, EmptyString) (λ _, Ok ()) (Ok "list.txt"%string)
      (λ p, String.eqb p "a.wav") (λ p, Ok p) (λ _ _, Ok ()) (λ _, Ok ())
      (λ _, Raise (LibraryError "ffmpeg.Error" "ffmpeg error")) true
      (λ _, Ok ()) ["a.wav"; "b.wav"]%string "out.wav" false
    = (match (λ _ : string, EmptyString) "out.wav"%string with
       | EmptyString => []
       | _ => [MakeDirs ((λ _ : string, EmptyString) "out.wav"%string)]
       end
       ++ [WriteList "list.txt"
             ((λ p, list_line (escape_quotes (id p)))
              <$> filter (λ p, String.eqb p "a.wav" = true)
                    ["a.wav"; "b.wav"]%string);
           RunFfmpeg job]
       ++ [RemoveFile "list.txt"],
       match (λ _ : string, @Ok unit ()) "list.txt"%string with
       | Raise e => Raise e
       | Ok _ =>
           (λ _ : ffmpeg_job, Raise (LibraryError "ffmpeg.Error" "ffmpeg error")) job
       end)
    ∧ concat_list job = "list.txt"%string
    ∧ job_output job = "out.wav"%string
    ∧ (audio_filter job = None ↔ false = false).
Proof.
  apply (combine_audio_files_runs (λ _, EmptyString) (λ _, Ok ())
           (Ok "list.txt"%string) (λ p, String.eqb p "a.wav") (λ p, Ok p)
           (λ _ _, Ok ()) (λ _, Ok ())
           (λ _, Raise (LibraryError "ffmpeg.Error" "ffmpeg error")) true
           (λ _, Ok ()) ["a.wav"; "b.wav"]%string "out.wav" false
           "list.txt" id).
  - discriminate.
  - reflexivity.
  - reflexivity.
  - reflexivity.
  - reflexivity.
  - reflexivity.
Defined.

(** X16. Different absolute paths give different lines of the list file: the
    quoting keeps the lines apart. *)
Theorem list_lines_distinct (path1 path2 : string) :
  list_line (escape_quotes path1) = list_line (escape_quotes path2) →
  path1 = path2.
Proof. intros Heq. by apply escape_quotes_inj, list_line_inj. Qed.

Lemma list_lines_distinct_witness : "it's.wav"%string = "it's.wav"%string.
Proof. apply (list_lines_distinct "it's.wav" "it's.wav"). reflexivity. Defined.

(** *** Header lines *)

(** X17. The header segments [_split_by_headers] returns are the header lines
    of the text, one segment per header line and in the order of the lines,
    each with the trimmed header text as text and as header value. *)
Theorem header_segments_are_header_lines (txt : str) :
  headers_of (_split_by_headers txt) = omap header_of_line (Py.split NL txt).
Proof. apply split_by_headers_headers. Qed.

(** X18. On a text whose lines have no whitespace at either end and none of
    which is made of [#] characters only, [extract_headers] returns the texts
    of the header segments of [_split_by_headers], in the same order: the scan
    of the whole text and the line-by-line match find the same headers. *)
Theorem extract_headers_agrees (txt : str) :
  Forall (λ line, strip line = line ∧ ¬ hashes_only line) (Py.split NL txt) →
  extract_headers txt = text <$> headers_of (_split_by_headers txt).
Proof.
  intros Hlines.
  rewrite split_by_headers_headers. unfold extract_headers.
  rewrite <- (join_split txt) at 1.
  rewrite finditer_lines.
  - apply header_lines_texts. eapply Forall_impl; [exact Hlines|]. by intros l [? _].
  - apply split_nonempty.
  - pose proof (split_no_sep NL txt) as Hno.
    rewrite Forall_forall in Hlines, Hno. apply Forall_forall.
    intros line Hin. destruct (Hlines line Hin). split_and!; auto.
Qed.

Lemma extract_headers_agrees_witness :
  extract_headers (lit "# One" ++ [NL] ++ lit "text" ++ [NL] ++ lit "## Two")
  = text <$> headers_of
      (_split_by_headers
         (lit "# One" ++ [NL] ++ lit "text" ++ [NL] ++ lit "## Two")).
Proof.
  apply extract_headers_agrees. unfold hashes_only.
  refine (proj1 (bool_decide_spec _) _). by vm_compute.
Defined.

(** X19. When [combine_audio_files] does not get to run ffmpeg it raises, and
    it removes no file: the cleanup belongs to the [try] around ffmpeg, so a
    temporary list file created before the failure is left behind. *)
Theorem combine_audio_files_stops_early (dirname : string → string)
    (makedirs : string → res unit) (temp_file : res string)
    (path_exists : string → bool) (abspath : string → res string)
    (write : nat → string → res unit) (close : list string → res unit)
    (ffmpeg_run : ffmpeg_job → res unit) (temp_list_left : bool)
    (remove : string → res unit)
    (segment_files : list string) (output_path : string) (normalize : bool) :
  let call :=
    combine_audio_files dirname makedirs temp_file path_exists abspath write
      close ffmpeg_run temp_list_left remove segment_files output_path
      normalize in
  (∀ job, RunFfmpeg job ∉ call.1) →
  (∃ e, call.2 = Raise e) ∧ (∀ path, RemoveFile path ∉ call.1).
Proof.
  intros call. subst call. unfold combine_audio_files.
  destruct (truthy segment_files); cbn [negb].
  2: { intros _. split; [by eexists|]. intros path Hin. by apply elem_of_nil in Hin. }
  assert (∀ path dir, RemoveFile path ∉ match dir with
                                        | EmptyString => []
                                        | _ => [MakeDirs dir]
                                        end) as Hmade.
  { intros path [|c d] Hin; [by apply elem_of_nil in Hin|].
    by apply list_elem_of_singleton in Hin. }
  assert (∀ path dir name lines,
            RemoveFile path ∉ match dir with
                              | EmptyString => []
                              | _ => [MakeDirs dir]
                              end ++ [WriteList name lines]) as Hlist.
  { intros path dir name lines Hin. apply elem_of_app in Hin as [Hin|Hin].
    - by apply (Hmade path dir).
    - by apply list_elem_of_singleton in Hin. }
  destruct (dirname output_path) as [|c d] eqn:Ed.
  - destruct temp_file as [temp_list_path|e].
    2: { intros _. split; [by eexists|]. intros path Hin. by apply elem_of_nil in Hin. }
    destruct (write_lines _ _ _ _ _) as [lines block].
    destruct (close lines) as [[]|e], block as [[]|e'];
      try (intros _; split; [by eexists | intros path; apply (Hlist path EmptyString)]).
    destruct temp_list_left; intros Hno; exfalso; eapply Hno;
      cbn [fst app]; apply elem_of_cons; right; by left.
  - destruct (makedirs (String c d)) as [[]|e].
    2: { intros _. split; [by eexists | intros path; apply (Hmade path (String c d))]. }
    destruct temp_file as [temp_list_path|e].
    2: { intros _. split; [by eexists | intros path; apply (Hmade path (String c d))]. }
    destruct (write_lines _ _ _ _ _) as [lines block].
    destruct (close lines) as [[]|e], block as [[]|e'];
      try (intros _; split; [by eexists | intros path; apply (Hlist path (String c d))]).
    destruct temp_list_left; intros Hno; exfalso; eapply Hno;
      cbn [fst app]; apply elem_of_cons; right; apply elem_of_cons; right; by left.
Qed.

Lemma combine_audio_files_stops_early_witness :
  (∃ e,
     (combine_audio_files (λ _, "out"%string)
        (λ _, Raise (LibraryError "PermissionError" "out")) (Ok "list.txt"%string)
        (λ _, true) (λ p, Ok p) (λ _ _, Ok ()) (λ _, Ok ()) (λ _, Ok ()) true
        (λ _, Ok ()) ["a.wav"%string] "out/all.wav" true).2 = Raise e)
  ∧ (∀ path,
       RemoveFile path
       ∉ (combine_audio_files (λ _, "out"%string) (λ _, Ok ())
            (Ok "list.txt"%string) (λ _, true) (λ p, Ok p)
            (λ n _, if n is 0%nat then Ok ()
                    else Raise (LibraryError "OSError" "disk full"))
            (λ _, Ok ()) (λ _, Ok ()) true (λ _, Ok ())
            ["a.wav"; "b.wav"]%string "out/all.wav" true).1).
Proof.
  split.
  - apply (combine_audio_files_stops_early (λ _, "out"%string)
             (λ _, Raise (LibraryError "PermissionError" "out"))
             (Ok "list.txt"%string) (λ _, true) (λ p, Ok p) (λ _ _, Ok ())
             (λ _, Ok ()) (λ _, Ok ()) true (λ _, Ok ())
             ["a.wav"%string] "out/all.wav" true).
    intros job Hin. vm_compute in Hin.
    apply list_elem_of_singleton in Hin. discriminate.
  - apply (combine_audio_files_stops_early (λ _, "out"%string) (λ _, Ok ())
             (Ok "list.txt"%string) (λ _, true) (λ p, Ok p)
             (λ n _, if n is 0%nat then Ok ()
                     else Raise (LibraryError "OSError" "disk full"))
             (λ _, Ok ()) (λ _, Ok ()) true (λ _, Ok ())
             ["a.wav"; "b.wav"]%string "out/all.wav" true).
    intros job Hin. vm_compute in Hin.
    apply elem_of_cons in Hin as [Hin|Hin]; [discriminate|].
    apply list_elem_of_singleton in Hin. discriminate.
Defined.
